(** * voice-orb-visualizer: audio pipeline, force system and fade state

    A shallow embedding of the numeric core of the visualizer:
    [src/core/audio-pipeline.ts] (class [AudioPipeline]),
    [src/core/forces.ts] (class [ForceSystem]), [src/core/utils.ts]
    and the volume part of [VoiceOrb.draw] in [src/core/VoiceOrb.ts].

    JavaScript numbers are modelled as real numbers: every arithmetic
    operation is exact, [Math.sin] is [sin] and [Math.PI] is [PI].
    Rounding, infinities and NaN are outside the model.  The clock
    ([performance.now()]), the random generator ([Math.random()]) and the
    analyser's frequency data are inputs of the calls that read them. *)

From Stdlib Require Import Reals Lra Lia List Bool Arith Permutation Sorted.
From Stdlib Require Import Strings.Byte NArith ZArith.
Import ListNotations.
Open Scope R_scope.

(** ** utils.ts *)

Module Utils.

(** [easeOutCubic(t) = 1 - Math.pow(1 - t, 3)] *)
Definition easeOutCubic (t : R) : R := 1 - (1 - t) ^ 3.

(** [easeInOutCubic(t)] *)
Definition easeInOutCubic (t : R) : R :=
  if Rlt_dec t 0.5 then 4 * t * t * t else 1 - (-2 * t + 2) ^ 3 / 2.

(** [clamp(value, min, max) = Math.min(Math.max(value, min), max)] *)
Definition clamp (value lo hi : R) : R := Rmin (Rmax value lo) hi.

(** [lerp(start, end, factor)] *)
Definition lerp (start stop factor : R) : R := start + (stop - start) * factor.

End Utils.

(** ** Arrays of numbers *)

Module JsArray.

(** [arr.reduce((a, b) => a + b, 0)] *)
Definition sum (l : list R) : R := fold_left Rplus l 0.

(** [arr.slice(-n)]: the last [n] elements, the whole array when it is
    shorter. *)
Definition slice_last (n : nat) (l : list R) : list R :=
  skipn (length l - n) l.

(** [arr.shift()]: drops the first element. *)
Definition shift (l : list R) : list R := tl l.

(** [arr[i]] for an index that is in range; the default is never read by
    the callers below (see [median_index_in_range]). *)
Definition get (l : list R) (i : nat) : R := nth i l 0.

(** [arr.sort((a, b) => a - b)]: ascending numeric sort.  The engine's
    algorithm is not specified; an insertion sort is used here, and
    [sort_unique] shows that any other sorting algorithm gives the same
    array. *)
Fixpoint insert (x : R) (l : list R) : list R :=
  match l with
  | [] => [x]
  | y :: l' => if Rle_dec x y then x :: y :: l' else y :: insert x l'
  end.

Fixpoint sort (l : list R) : list R :=
  match l with
  | [] => []
  | x :: l' => insert x (sort l')
  end.

End JsArray.

(** ** types.ts *)

Inductive AudioMode : Set := microphone | assistant | test | stopped.

Definition AudioMode_eqb (a b : AudioMode) : bool :=
  match a, b with
  | microphone, microphone | assistant, assistant
  | test, test | stopped, stopped => true
  | _, _ => false
  end.

Record CalibrationData : Type := mkCalibrationData {
  cd_baseline : R;
  cd_gain : R;
  cd_sensitivity : R;
  cd_loudThreshold : R;
  cd_veryLoudThreshold : R
}.

Record InternalForce : Type := mkForce {
  angle : R;
  strength : R;
  life : R;
  decay : R;
  speed : R;
  distance : R;
  maxDistance : R
}.

(** ** audio-pipeline.ts *)

Module AudioPipeline.

(** The fields of the class that the volume computation reads or writes.
    The two analyser nodes are kept as presence flags: [getVolume] only
    tests them against [null] and reads one frame of byte data from the
    one in use, which is an argument of [getVolume] here. *)
Record t : Type := mk {
  analyser : bool;
  assistantAnalyser : bool;
  isCalibrating : bool;
  calibrationSamples : list R;
  calibrationStartTime : R;
  baselineNoise : R;
  dynamicSensitivityThreshold : R;
  dynamicLoudThreshold : R;
  dynamicVeryLoudThreshold : R;
  adaptiveGain : R;
  volumeHistory : list R
}.

Definition CALIBRATION_DURATION : R := 1000.
Definition VOLUME_HISTORY_SIZE : nat := 100.

(** Field initialisers of the class. *)
Definition init : t :=
  {| analyser := false;
     assistantAnalyser := false;
     isCalibrating := false;
     calibrationSamples := [];
     calibrationStartTime := 0;
     baselineNoise := 0.02;
     dynamicSensitivityThreshold := 0.08;
     dynamicLoudThreshold := 0.4;
     dynamicVeryLoudThreshold := 0.7;
     adaptiveGain := 1.0;
     volumeHistory := [] |}.

(** [startCalibration()]; [now] is the value of [performance.now()]. *)
Definition startCalibration (now : R) (s : t) : t :=
  {| analyser := analyser s;
     assistantAnalyser := assistantAnalyser s;
     isCalibrating := true;
     calibrationSamples := [];
     calibrationStartTime := now;
     baselineNoise := baselineNoise s;
     dynamicSensitivityThreshold := dynamicSensitivityThreshold s;
     dynamicLoudThreshold := dynamicLoudThreshold s;
     dynamicVeryLoudThreshold := dynamicVeryLoudThreshold s;
     adaptiveGain := adaptiveGain s;
     volumeHistory := volumeHistory s |}.

(** [Math.max(0.5, Math.min(gain, 4.0))] *)
Definition clampGain (g : R) : R := Rmax 0.5 (Rmin g 4.0).

(** [Math.floor(length / 2)] and [Math.floor(length * 0.9)] *)
Definition medianIndex (len : nat) : nat := (len / 2)%nat.
Definition p90Index (len : nat) : nat := (len * 9 / 10)%nat.

(** The body of the [elapsed >= CALIBRATION_DURATION] branch of
    [processCalibration], on the samples collected so far. *)
Definition completeCalibration (samples : list R) (s : t) : t :=
  let sorted := JsArray.sort samples in
  let median := JsArray.get sorted (medianIndex (length sorted)) in
  let p90 := JsArray.get sorted (p90Index (length sorted)) in
  let baseline := Rmax 0.01 median in
  let noiseRange := p90 - baseline in
  let gain := if Rlt_dec 0.05 noiseRange then 0.8 / noiseRange else 2.0 in
  {| analyser := analyser s;
     assistantAnalyser := assistantAnalyser s;
     isCalibrating := false;
     calibrationSamples := sorted;
     calibrationStartTime := calibrationStartTime s;
     baselineNoise := baseline;
     dynamicSensitivityThreshold := baseline + 0.03;
     dynamicLoudThreshold := baseline + 0.15;
     dynamicVeryLoudThreshold := baseline + 0.35;
     adaptiveGain := clampGain gain;
     volumeHistory := volumeHistory s |}.

(** [processCalibration(volume)]; the result is the returned flag
    ("calibration complete") and the pipeline after the call. *)
Definition processCalibration (volume now : R) (s : t) : bool * t :=
  if negb (isCalibrating s) then (false, s)
  else
    let samples := calibrationSamples s ++ [volume] in
    let elapsed := now - calibrationStartTime s in
    if Rle_dec CALIBRATION_DURATION elapsed
    then (true, completeCalibration samples s)
    else (false,
          {| analyser := analyser s;
             assistantAnalyser := assistantAnalyser s;
             isCalibrating := true;
             calibrationSamples := samples;
             calibrationStartTime := calibrationStartTime s;
             baselineNoise := baselineNoise s;
             dynamicSensitivityThreshold := dynamicSensitivityThreshold s;
             dynamicLoudThreshold := dynamicLoudThreshold s;
             dynamicVeryLoudThreshold := dynamicVeryLoudThreshold s;
             adaptiveGain := adaptiveGain s;
             volumeHistory := volumeHistory s |}).

(** A calibration window seen from [processCalibration]: the calls made
    with the same sample [volume] at the clock values [times]. *)
Definition observeAll (volume : R) (times : list R) (s : t) : t :=
  fold_left (fun s now => snd (processCalibration volume now s)) times s.

(** The volume history after [push(rawVolume)] and the conditional
    [shift()]. *)
Definition pushHistory (rawVolume : R) (h : list R) : list R :=
  let h1 := h ++ [rawVolume] in
  if (VOLUME_HISTORY_SIZE <? length h1)%nat then JsArray.shift h1 else h1.

(** The gain after the "continuous adaptation" block, for the history [h]
    already holding the current sample. *)
Definition adaptGain (h : list R) (calibrating : bool) (gain : R) : R :=
  if (50 <=? length h)%nat && negb calibrating then
    let recentVolumes := JsArray.slice_last 50 h in
    let avgRecent := JsArray.sum recentVolumes / INR (length recentVolumes) in
    let targetRange := 0.3 in
    if Rlt_dec 0.05 avgRecent then
      let gainAdjustment := targetRange / avgRecent in
      clampGain (gain + (gainAdjustment - gain) * 0.001)
    else gain
  else gain.

(** The value that [processVolumeAdaptively] computes from the raw volume
    before the final [Math.min(adjustedVolume, 1.0)]: baseline subtraction
    floored at 0, times the gain held on entry. *)
Definition postBaseline (rawVolume : R) (s : t) : R :=
  Rmax 0 (rawVolume - baselineNoise s).

(** [processVolumeAdaptively(rawVolume)]: returned volume and pipeline after
    the call. *)
Definition processVolumeAdaptively (rawVolume : R) (s : t) : R * t :=
  let h := pushHistory rawVolume (volumeHistory s) in
  let adjustedVolume := postBaseline rawVolume s * adaptiveGain s in
  (Rmin adjustedVolume 1.0,
   {| analyser := analyser s;
      assistantAnalyser := assistantAnalyser s;
      isCalibrating := isCalibrating s;
      calibrationSamples := calibrationSamples s;
      calibrationStartTime := calibrationStartTime s;
      baselineNoise := baselineNoise s;
      dynamicSensitivityThreshold := dynamicSensitivityThreshold s;
      dynamicLoudThreshold := dynamicLoudThreshold s;
      dynamicVeryLoudThreshold := dynamicVeryLoudThreshold s;
      adaptiveGain := adaptGain h (isCalibrating s) (adaptiveGain s);
      volumeHistory := h |}).

(** One frame of [getByteFrequencyData]: a [Uint8Array]. *)
Definition byteValue (b : byte) : R := IZR (Z.of_N (Byte.to_N b)).

Definition byteSum (dataArray : list byte) : R :=
  fold_left (fun sum b => sum + byteValue b) dataArray 0.

(** [Math.min(sum / bufferLength / 255, 1)] *)
Definition rawVolumeOf (dataArray : list byte) : R :=
  Rmin (byteSum dataArray / INR (length dataArray) / 255) 1.

(** The tail of [getVolume], after the calibration block: the assistant
    mode's fixed boost, the adaptive processing otherwise. *)
Definition processedVolume (mode : AudioMode) (rawVolume : R) (s : t) : R * t :=
  if AudioMode_eqb mode assistant then
    let boostedVolume := Rmin (rawVolume * 2.0) 1.0 in
    (boostedVolume, s)
  else processVolumeAdaptively rawVolume s.

(** [getVolume(mode)].  [dataArray] is the frame the analyser in use
    delivers, [now] the value of [performance.now()] (read in test mode and
    by [processCalibration]) and [rnd] the value of [Math.random()] (read in
    test mode). *)
Definition getVolume (mode : AudioMode) (dataArray : list byte)
    (now rnd : R) (s : t) : R * t :=
  if AudioMode_eqb mode test then
    (Rabs (sin (now * 0.005)) * 0.3 + rnd * 0.1, s)
  else
    let analyserToUse :=
      if AudioMode_eqb mode assistant then assistantAnalyser s
      else analyser s in
    if negb analyserToUse then (0, s)
    else
      let rawVolume := rawVolumeOf dataArray in
      if isCalibrating s then
        let '(calibrationComplete, s1) := processCalibration rawVolume now s in
        if negb calibrationComplete then (0, s1)
        else processedVolume mode rawVolume s1
      else processedVolume mode rawVolume s.

(** [getThresholds()] *)
Definition getThresholds (s : t) : CalibrationData :=
  {| cd_baseline := baselineNoise s;
     cd_gain := adaptiveGain s;
     cd_sensitivity := dynamicSensitivityThreshold s;
     cd_loudThreshold := dynamicLoudThreshold s;
     cd_veryLoudThreshold := dynamicVeryLoudThreshold s |}.

(** [cleanup()]: both analysers dropped, calibration cancelled and the
    processing state back at its defaults.  [calibrationStartTime] is not
    reset. *)
Definition cleanup (s : t) : t :=
  {| analyser := false;
     assistantAnalyser := false;
     isCalibrating := false;
     calibrationSamples := [];
     calibrationStartTime := calibrationStartTime s;
     baselineNoise := 0.02;
     dynamicSensitivityThreshold := 0.08;
     dynamicLoudThreshold := 0.4;
     dynamicVeryLoudThreshold := 0.7;
     adaptiveGain := 1.0;
     volumeHistory := [] |}.

(** [initMicrophone()] when the microphone is granted: cleanup, a new
    analyser, calibration started.  When [getUserMedia] rejects, the call
    has done [cleanup] only. *)
Definition initMicrophone (now : R) (s : t) : t :=
  let s0 := cleanup s in
  startCalibration now
    {| analyser := true;
       assistantAnalyser := assistantAnalyser s0;
       isCalibrating := isCalibrating s0;
       calibrationSamples := calibrationSamples s0;
       calibrationStartTime := calibrationStartTime s0;
       baselineNoise := baselineNoise s0;
       dynamicSensitivityThreshold := dynamicSensitivityThreshold s0;
       dynamicLoudThreshold := dynamicLoudThreshold s0;
       dynamicVeryLoudThreshold := dynamicVeryLoudThreshold s0;
       adaptiveGain := adaptiveGain s0;
       volumeHistory := volumeHistory s0 |}.

(** [initAssistant()]: cleanup and a new assistant analyser. *)
Definition initAssistant (s : t) : t :=
  let s0 := cleanup s in
  {| analyser := analyser s0;
     assistantAnalyser := true;
     isCalibrating := isCalibrating s0;
     calibrationSamples := calibrationSamples s0;
     calibrationStartTime := calibrationStartTime s0;
     baselineNoise := baselineNoise s0;
     dynamicSensitivityThreshold := dynamicSensitivityThreshold s0;
     dynamicLoudThreshold := dynamicLoudThreshold s0;
     dynamicVeryLoudThreshold := dynamicVeryLoudThreshold s0;
     adaptiveGain := adaptiveGain s0;
     volumeHistory := volumeHistory s0 |}.

(** The public calls of the class that touch the modelled fields, and the
    pipeline after a sequence of them. *)
Inductive call : Type :=
| CInitMicrophone (now : R)
| CInitMicrophoneDenied
| CInitAssistant
| CGetVolume (mode : AudioMode) (dataArray : list byte) (now rnd : R)
| CCleanup.

Definition step (s : t) (c : call) : t :=
  match c with
  | CInitMicrophone now => initMicrophone now s
  | CInitMicrophoneDenied => cleanup s
  | CInitAssistant => initAssistant s
  | CGetVolume mode dataArray now rnd => snd (getVolume mode dataArray now rnd s)
  | CCleanup => cleanup s
  end.

Definition run (calls : list call) (s : t) : t := fold_left step calls s.

(** The volumes returned by the [getVolume] calls of a sequence, in order. *)
Fixpoint outputs (calls : list call) (s : t) : list R :=
  match calls with
  | [] => []
  | c :: rest =>
      match c with
      | CGetVolume mode dataArray now rnd =>
          fst (getVolume mode dataArray now rnd s) :: outputs rest (step s c)
      | _ => outputs rest (step s c)
      end
  end.

(** What the environment guarantees on the inputs of a [getVolume] call:
    [Math.random()] is a number of [0, 1), and an analyser frame has at
    least one bin ([frequencyBinCount] is half the FFT size). *)
Definition call_ok (c : call) : Prop :=
  match c with
  | CGetVolume mode dataArray now rnd =>
      0 <= rnd < 1 /\ (mode = test \/ dataArray <> [])
  | _ => True
  end.

(** The two bounds of the data model on the pipeline's state. *)
Definition gain_in_range (s : t) : Prop := 0.5 <= adaptiveGain s <= 4.0.

Definition history_bounded (s : t) : Prop :=
  (length (volumeHistory s) <= VOLUME_HISTORY_SIZE)%nat.

(** [getCalibrationStatus()]; [now] is the value of [performance.now()],
    read only while calibrating. *)
Record CalibrationStatus : Type := mkCalibrationStatus {
  cs_isCalibrating : bool;
  cs_progress : R;
  cs_samplesCount : nat
}.

Definition getCalibrationStatus (now : R) (s : t) : CalibrationStatus :=
  let elapsed := if isCalibrating s then now - calibrationStartTime s else 0 in
  let progress := Rmin (elapsed / CALIBRATION_DURATION) 1 in
  {| cs_isCalibrating := isCalibrating s;
     cs_progress := progress;
     cs_samplesCount := length (calibrationSamples s) |}.

(** Consecutive [processVolumeAdaptively] calls on the raw volumes
    [volumes]. *)
Definition processAll (volumes : list R) (s : t) : t :=
  fold_left (fun s v => snd (processVolumeAdaptively v s)) volumes s.

(** Consecutive [getVolume] calls in assistant mode; a frame is the
    analyser data with the clock and random values of the call. *)
Definition assistantCalls (frames : list (list byte * R * R)) : list call :=
  map (fun '(dataArray, now, rnd) => CGetVolume assistant dataArray now rnd)
    frames.

(** The order of the values [getThresholds] reports. *)
Definition thresholds_ordered (s : t) : Prop :=
  0.01 <= baselineNoise s
  /\ baselineNoise s < dynamicSensitivityThreshold s
  /\ dynamicSensitivityThreshold s < dynamicLoudThreshold s
  /\ dynamicLoudThreshold s < dynamicVeryLoudThreshold s.

End AudioPipeline.

(** ** forces.ts *)

Module ForceSystem.

Record t : Type := mk {
  forces : list InternalForce;
  sensitivity : R;
  fadeMultiplier : R
}.

(** [new ForceSystem(sensitivity)] *)
Definition create (sensitivity : R) : t :=
  {| forces := []; sensitivity := sensitivity; fadeMultiplier := 1 |}.

(** The four [Math.random()] values one [update] call may read, in the
    order it reads them: the spawn test, then the new force's angle, decay
    and speed. *)
Record Draws : Type := mkDraws {
  r_spawn : R;
  r_angle : R;
  r_decay : R;
  r_speed : R
}.

(** [Math.random()] returns a number in [0, 1). *)
Definition unit_draw (r : R) : Prop := 0 <= r < 1.

Definition draws_ok (d : Draws) : Prop :=
  unit_draw (r_spawn d) /\ unit_draw (r_angle d) /\
  unit_draw (r_decay d) /\ unit_draw (r_speed d).

(** [force => force.life > 0] *)
Definition alive (force : InternalForce) : bool :=
  if Rlt_dec 0 (life force) then true else false.

(** The object literal [newForce]. *)
Definition newForce (smoothedVolume dynamicSensitivityThreshold : R)
    (d : Draws) : InternalForce :=
  {| angle := r_angle d * PI * 2;
     strength := 10 + (smoothedVolume - dynamicSensitivityThreshold) * 50;
     life := 1.0;
     decay := 0.008 + r_decay d * 0.012;
     speed := 0.3 + r_speed d * 1.0;
     distance := 0;
     maxDistance := 20 + (smoothedVolume - dynamicSensitivityThreshold) * 60 |}.

(** The forces after the creation block of [update]. *)
Definition spawn (smoothedVolume dynamicSensitivityThreshold : R)
    (d : Draws) (fs : list InternalForce) : list InternalForce :=
  if Rlt_dec dynamicSensitivityThreshold smoothedVolume then
    let creationRate := (smoothedVolume - dynamicSensitivityThreshold) * 0.5 in
    if Rlt_dec (r_spawn d) creationRate then
      fs ++ [newForce smoothedVolume dynamicSensitivityThreshold d]
    else fs
  else fs.

(** The body of the final [forEach] of [update], on one force. *)
Definition decayForce (smoothedVolume dynamicSensitivityThreshold fade : R)
    (force : InternalForce) : InternalForce :=
  let baseDecay :=
    if Rlt_dec smoothedVolume dynamicSensitivityThreshold then 2.5 else 1 in
  let fadeDecay := (1 - fade) * 2 in
  {| angle := angle force + 0.005;
     strength := strength force;
     life := life force - decay force * (baseDecay + fadeDecay);
     decay := decay force;
     speed := speed force;
     distance := Rmin (distance force + speed force) (maxDistance force);
     maxDistance := maxDistance force |}.

(** [update(smoothedVolume, dynamicSensitivityThreshold)] *)
Definition update (smoothedVolume dynamicSensitivityThreshold : R)
    (d : Draws) (s : t) : t :=
  let kept := filter alive (forces s) in
  let created := spawn smoothedVolume dynamicSensitivityThreshold d kept in
  {| forces :=
       map (decayForce smoothedVolume dynamicSensitivityThreshold
              (fadeMultiplier s)) created;
     sensitivity := sensitivity s;
     fadeMultiplier := fadeMultiplier s |}.

(** The angular distance computed at the top of the [forEach] of
    [getInfluenceAt]. *)
Definition angleDiff (queried : R) (force : InternalForce) : R :=
  let d := Rabs (queried - angle force) in
  if Rlt_dec PI d then PI * 2 - d else d.

(** What one force adds to [totalInfluence]. *)
Definition influenceOf (queried : R) (force : InternalForce) : R :=
  let angularFalloff := Rmax 0 (1 - angleDiff queried force / (PI * 0.4)) in
  let forceAmount := strength force * life force * angularFalloff in
  let distanceEffect := sin (distance force / maxDistance force * PI) in
  forceAmount * distanceEffect.

(** [getInfluenceAt(angle)] *)
Definition getInfluenceAt (queried : R) (s : t) : R :=
  fold_left (fun totalInfluence force => totalInfluence + influenceOf queried force)
    (forces s) 0.

(** [setFadeMultiplier(fade)] *)
Definition setFadeMultiplier (fade : R) (s : t) : t :=
  {| forces := forces s; sensitivity := sensitivity s; fadeMultiplier := fade |}.

(** [getActiveCount()] *)
Definition getActiveCount (s : t) : nat := length (forces s).

(** [clear()] *)
Definition clear (s : t) : t :=
  {| forces := []; sensitivity := sensitivity s;
     fadeMultiplier := fadeMultiplier s |}.

(** The force systems a client can build: the constructor followed by any
    calls of [update], [clear] and [setFadeMultiplier], the latter with a
    value in [0, 1] (its one caller, [VoiceOrb.draw], passes the clamped
    fade multiplier). *)
Inductive reachable : t -> Prop :=
| reach_create : forall sens, reachable (create sens)
| reach_update : forall v thr d s,
    draws_ok d -> reachable s -> reachable (update v thr d s)
| reach_fade : forall fade s,
    0 <= fade <= 1 -> reachable s -> reachable (setFadeMultiplier fade s)
| reach_clear : forall s, reachable s -> reachable (clear s).

(** What the constructor of a force ([newForce]) and the decay step
    maintain on every force of a reachable system. *)
Definition force_wf (force : InternalForce) : Prop :=
  0 < strength force
  /\ life force <= 1
  /\ 0.008 <= decay force < 0.02
  /\ 0.3 <= speed force < 1.3
  /\ 0 <= distance force <= maxDistance force
  /\ 0 < maxDistance force.

Definition system_wf (s : t) : Prop :=
  0 <= fadeMultiplier s <= 1 /\ Forall force_wf (forces s).

(** [n] consecutive [update] calls with the same arguments and draws. *)
Fixpoint updates (n : nat) (v thr : R) (d : Draws) (s : t) : t :=
  match n with
  | O => s
  | S n' => update v thr d (updates n' v thr d s)
  end.

(** The two calls [VoiceOrb.draw] makes on its force system every frame, and
    the system after a sequence of them. *)
Inductive call : Type :=
| CUpdate (smoothedVolume dynamicSensitivityThreshold : R) (d : Draws)
| CSetFadeMultiplier (fade : R).

Definition step (s : t) (c : call) : t :=
  match c with
  | CUpdate v thr d => update v thr d s
  | CSetFadeMultiplier fade => setFadeMultiplier fade s
  end.

Definition run (calls : list call) (s : t) : t := fold_left step calls s.

(** The number of [update] calls of a sequence. *)
Fixpoint updateCount (calls : list call) : nat :=
  match calls with
  | [] => 0
  | CUpdate _ _ _ :: rest => S (updateCount rest)
  | CSetFadeMultiplier _ :: rest => updateCount rest
  end.

(** A call made in silence: an [update] whose smoothed volume does not
    exceed its threshold, or a [setFadeMultiplier] with a value of
    [0, 1]. *)
Definition silent_call (c : call) : Prop :=
  match c with
  | CUpdate v thr _ => v <= thr
  | CSetFadeMultiplier fade => 0 <= fade <= 1
  end.

End ForceSystem.

(** ** forces.ts: the noise system *)

Module NoiseSystem.

(** [NoisePoint] of types.ts *)
Record NoisePoint : Type := mkNoisePoint {
  angle : R;
  speed : R;
  amplitude : R;
  phase : R
}.

(** [numPoints] is a vertex count, a natural number. *)
Record t : Type := mk {
  points : list NoisePoint;
  numPoints : nat
}.

(** The point pushed by iteration [i] of the loop of [initializePoints];
    [rnd k] is the value of the [k]-th [Math.random()] call of the loop. *)
Definition noisePoint (numPoints : nat) (rnd : nat -> R) (i : nat) : NoisePoint :=
  {| angle := INR i / INR numPoints * PI * 2;
     speed := 0.001 + rnd (3 * i)%nat * 0.002;
     amplitude := 0.3 + rnd (3 * i + 1)%nat * 0.3;
     phase := rnd (3 * i + 2)%nat * PI * 2 |}.

(** [initializePoints()] *)
Definition initializePoints (numPoints : nat) (rnd : nat -> R) : list NoisePoint :=
  map (noisePoint numPoints rnd) (seq 0 numPoints).

(** [new NoiseSystem(pointCount)] *)
Definition create (pointCount : nat) (rnd : nat -> R) : t :=
  {| points := initializePoints pointCount rnd; numPoints := pointCount |}.

(** [Math.floor] and the integer part towards zero. *)
Definition floor (x : R) : Z := Int_part x.

Definition trunc (x : R) : Z :=
  if Rle_dec 0 x then floor x else (- floor (- x))%Z.

(** The remainder operator [a % b] on numbers: the sign of the result is the
    sign of [a]. *)
Definition rem (a b : R) : R := a - b * IZR (trunc (a / b)).

(** [this.points[pointIndex]]: [undefined] for an index that is negative or
    past the end. *)
Definition pointAt (pointIndex : Z) (s : t) : option NoisePoint :=
  if (pointIndex <? 0)%Z then None
  else nth_error (points s) (Z.to_nat pointIndex).

(** [getNoiseAt(angle, time)] *)
Definition getNoiseAt (queried time : R) (s : t) : R :=
  let normalizedAngle := rem queried (PI * 2) in
  let pointIndex :=
    floor (normalizedAngle / (PI * 2) * INR (numPoints s)) in
  match pointAt pointIndex s with
  | None => 0
  | Some _ => sin (queried * 4 + time * 0.6) * 4
              + sin (queried * 5 - time * 0.4) * 2
  end.

(** [setPointCount(count)]; [rnd] is read only when the points are rebuilt. *)
Definition setPointCount (count : nat) (rnd : nat -> R) (s : t) : t :=
  if (count =? numPoints s)%nat then s else create count rnd.

(** A noise system holds as many points as its count says, each within the
    ranges [initializePoints] draws from. *)
Definition point_ok (p : NoisePoint) : Prop :=
  0 <= angle p < 2 * PI
  /\ 0.001 <= speed p < 0.003
  /\ 0.3 <= amplitude p < 0.6
  /\ 0 <= phase p < 2 * PI.

Definition wf (s : t) : Prop :=
  length (points s) = numPoints s /\ Forall point_ok (points s).

End NoiseSystem.

(** ** VoiceOrb.ts: the volume part of [draw] *)

Module VoiceOrb.

(** The options [draw] reads for the volume computation. *)
Record Options : Type := mkOptions {
  sensitivity : R;
  volumeLerpFactor : R;
  fadeOutMs : R
}.

(** [DEFAULT_OPTIONS] *)
Definition DEFAULT_OPTIONS : Options :=
  {| sensitivity := 0.05; volumeLerpFactor := 0.12; fadeOutMs := 1200 |}.

(** The fields [draw] reads or writes before it hands over to the canvas
    routines ([drawOrb] and below only move the orb's position and
    paint). *)
Record t : Type := mk {
  options : Options;
  audioPipeline : AudioPipeline.t;
  forceSystem : ForceSystem.t;
  currentMode : AudioMode;
  time : R;
  smoothedVolume : R;
  targetVolume : R;
  lastAudioTime : R;
  fadeMultiplier : R;
  previousVolumeLevel : R
}.

(** The constructor. *)
Definition create (opts : Options) : t :=
  {| options := opts;
     audioPipeline := AudioPipeline.init;
     forceSystem := ForceSystem.create (sensitivity opts);
     currentMode := stopped;
     time := 0;
     smoothedVolume := 0;
     targetVolume := 0;
     lastAudioTime := 0;
     fadeMultiplier := 1;
     previousVolumeLevel := 0 |}.

(** What one animation frame reads from its environment: the analyser
    frame, the three clock reads (inside [getVolume], when significant
    audio is recorded, when the fade progress is computed), the random
    value of the test signal and the draws of [ForceSystem.update]. *)
Record Frame : Type := mkFrame {
  dataArray : list byte;
  nowVolume : R;
  rnd : R;
  nowAudio : R;
  nowFade : R;
  draws : ForceSystem.Draws
}.

(** The "enhanced fade multiplier system" of [draw]. *)
Definition nextFadeMultiplier (currentVolumeLevel previousVolumeLevel fade : R) : R :=
  let fade1 :=
    if Rlt_dec currentVolumeLevel previousVolumeLevel then fade * 0.96
    else fade + (1 - fade) * 0.15 in
  Utils.clamp fade1 0 1.

(** [draw()], up to the call of [drawOrb]; the first component is
    [effectiveVolume], the argument of the [onVolume] callback. *)
Definition draw (f : Frame) (s : t) : R * t :=
  let '(rawVolume, pipeline) :=
    AudioPipeline.getVolume (currentMode s) (dataArray f) (nowVolume f) (rnd f)
      (audioPipeline s) in
  let thresholds := AudioPipeline.getThresholds pipeline in
  let lastAudioTime' :=
    if Rlt_dec (cd_sensitivity thresholds) rawVolume then nowAudio f
    else lastAudioTime s in
  let timeSinceAudio := nowFade f - lastAudioTime' in
  let fadeProgress := Rmin (timeSinceAudio / fadeOutMs (options s)) 1 in
  let fadeFactor := 1 - Utils.easeOutCubic fadeProgress in
  let targetVolume' := rawVolume * fadeFactor in
  let smoothedVolume' :=
    smoothedVolume s
    + (targetVolume' - smoothedVolume s) * volumeLerpFactor (options s) in
  let currentVolumeLevel := smoothedVolume' in
  let fadeMultiplier' :=
    nextFadeMultiplier currentVolumeLevel (previousVolumeLevel s)
      (fadeMultiplier s) in
  let forceSystem' :=
    ForceSystem.update smoothedVolume' (cd_sensitivity thresholds) (draws f)
      (ForceSystem.setFadeMultiplier fadeMultiplier' (forceSystem s)) in
  let effectiveVolume := smoothedVolume' * fadeMultiplier' in
  (effectiveVolume,
   {| options := options s;
      audioPipeline := pipeline;
      forceSystem := forceSystem';
      currentMode := currentMode s;
      time := time s
              + (if Rlt_dec (cd_sensitivity thresholds) effectiveVolume
                 then 0.006 else 0.001);
      smoothedVolume := smoothedVolume';
      targetVolume := targetVolume';
      lastAudioTime := lastAudioTime';
      fadeMultiplier := fadeMultiplier';
      previousVolumeLevel := currentVolumeLevel |}).

(** [resetVisualState()] *)
Definition resetVisualState (s : t) : t :=
  {| options := options s;
     audioPipeline := audioPipeline s;
     forceSystem := forceSystem s;
     currentMode := currentMode s;
     time := time s;
     smoothedVolume := 0;
     targetVolume := 0;
     lastAudioTime := lastAudioTime s;
     fadeMultiplier := 1;
     previousVolumeLevel := 0 |}.

Definition withMode (m : AudioMode) (p : AudioPipeline.t) (s : t) : t :=
  {| options := options s;
     audioPipeline := p;
     forceSystem := forceSystem s;
     currentMode := m;
     time := time s;
     smoothedVolume := smoothedVolume s;
     targetVolume := targetVolume s;
     lastAudioTime := lastAudioTime s;
     fadeMultiplier := fadeMultiplier s;
     previousVolumeLevel := previousVolumeLevel s |}.

(** [startMicrophone()] (microphone granted), [startAssistant()],
    [startTest()] *)
Definition startMicrophone (now : R) (s : t) : t :=
  withMode microphone (AudioPipeline.initMicrophone now (audioPipeline s)) s.

(** [startMicrophone()] when [initMicrophone] throws: the pipeline has been
    cleaned up and the mode is left as it was. *)
Definition startMicrophoneDenied (s : t) : t :=
  withMode (currentMode s) (AudioPipeline.cleanup (audioPipeline s)) s.

Definition startAssistant (s : t) : t :=
  withMode assistant (AudioPipeline.initAssistant (audioPipeline s)) s.

Definition startTest (s : t) : t := withMode test (audioPipeline s) s.

(** [stop()] *)
Definition stop (s : t) : t :=
  let s1 := withMode stopped (AudioPipeline.cleanup (audioPipeline s)) s in
  resetVisualState
    {| options := options s1;
       audioPipeline := audioPipeline s1;
       forceSystem := ForceSystem.clear (forceSystem s1);
       currentMode := currentMode s1;
       time := time s1;
       smoothedVolume := smoothedVolume s1;
       targetVolume := targetVolume s1;
       lastAudioTime := lastAudioTime s1;
       fadeMultiplier := fadeMultiplier s1;
       previousVolumeLevel := previousVolumeLevel s1 |}.

(** [setOptions(newOptions)], for the options modelled. *)
Definition setOptions (opts : Options) (s : t) : t :=
  {| options := opts;
     audioPipeline := audioPipeline s;
     forceSystem := forceSystem s;
     currentMode := currentMode s;
     time := time s;
     smoothedVolume := smoothedVolume s;
     targetVolume := targetVolume s;
     lastAudioTime := lastAudioTime s;
     fadeMultiplier := fadeMultiplier s;
     previousVolumeLevel := previousVolumeLevel s |}.

(** The calls a host page makes (animation frames included), and the orb
    after a sequence of them. *)
Inductive call : Type :=
| CDraw (f : Frame)
| CStartMicrophone (now : R)
| CStartMicrophoneDenied
| CStartAssistant
| CStartTest
| CStop
| CSetOptions (opts : Options).

Definition step (s : t) (c : call) : t :=
  match c with
  | CDraw f => snd (draw f s)
  | CStartMicrophone now => startMicrophone now s
  | CStartMicrophoneDenied => startMicrophoneDenied s
  | CStartAssistant => startAssistant s
  | CStartTest => startTest s
  | CStop => stop s
  | CSetOptions opts => setOptions opts s
  end.

Definition run (calls : list call) (s : t) : t := fold_left step calls s.

(** A run of consecutive animation frames, and the runs along which the
    smoothed volume strictly decreases, respectively does not decrease, from
    each frame to the next. *)
Definition drawAll (frames : list Frame) (s : t) : t :=
  fold_left (fun s f => snd (draw f s)) frames s.

Fixpoint falling (frames : list Frame) (s : t) : Prop :=
  match frames with
  | [] => True
  | f :: rest =>
      smoothedVolume (snd (draw f s)) < smoothedVolume s
      /\ falling rest (snd (draw f s))
  end.

Fixpoint rising (frames : list Frame) (s : t) : Prop :=
  match frames with
  | [] => True
  | f :: rest =>
      smoothedVolume s <= smoothedVolume (snd (draw f s))
      /\ rising rest (snd (draw f s))
  end.

(** Between two calls the orb remembers the smoothed volume of the last
    frame, and its fade multiplier is a number of [0, 1]. *)
Definition fade_inv (s : t) : Prop :=
  0 <= fadeMultiplier s <= 1 /\ previousVolumeLevel s = smoothedVolume s.

(** Every frame of a sequence of calls comes with draws in [0, 1). *)
Definition frames_ok (calls : list call) : Prop :=
  Forall (fun c => match c with
                   | CDraw f => ForceSystem.draws_ok (draws f)
                   | _ => True
                   end) calls.

(** [hasActiveEffects], from the orb as [draw] leaves it and the effective
    volume it computed. *)
Definition hasActiveEffects (effectiveVolume : R) (s : t) : bool :=
  let thresholds := AudioPipeline.getThresholds (audioPipeline s) in
  (if Rle_dec (cd_sensitivity thresholds) effectiveVolume then true else false)
  || (0 <? ForceSystem.getActiveCount (forceSystem s))%nat.

(** The effective volumes of the frames of a sequence of calls, in order
    (the arguments of [onVolume]). *)
Fixpoint volumes (calls : list call) (s : t) : list R :=
  match calls with
  | [] => []
  | c :: rest =>
      match c with
      | CDraw f => fst (draw f s) :: volumes rest (step s c)
      | _ => volumes rest (step s c)
      end
  end.

(** Options under which the smoothing is a convex step and the fade-out
    window is not empty. *)
Definition options_ok (o : Options) : Prop :=
  0 <= volumeLerpFactor o <= 1 /\ 0 < fadeOutMs o.

(** A sequence of calls whose clock reads never go back from the time [t0],
    whose random values lie in [0, 1), whose analyser frames have at least
    one bin and whose option changes respect [options_ok]. *)
Fixpoint clocked (t0 : R) (calls : list call) (s : t) : Prop :=
  match calls with
  | [] => True
  | c :: rest =>
      match c with
      | CDraw f =>
          t0 <= nowAudio f /\ nowAudio f <= nowFade f
          /\ 0 <= rnd f < 1
          /\ (currentMode s = test \/ dataArray f <> [])
          /\ clocked (nowFade f) rest (step s c)
      | CSetOptions o => options_ok o /\ clocked t0 rest (step s c)
      | _ => clocked t0 rest (step s c)
      end
  end.

End VoiceOrb.

(** ** VoiceOrb.ts: the shape handed to the canvas *)

Module OrbShape.

(** [BlobPoint] of types.ts *)
Record BlobPoint : Type := mkBlobPoint { x : R; y : R }.

(** The position fields of the orb. *)
Record Layout : Type := mkLayout {
  orbX : R;
  orbY : R;
  currentX : R;
  currentY : R;
  targetX : R;
  targetY : R
}.

(** The options read below; [pointCount] is a vertex count, a natural
    number. *)
Record Options : Type := mkOptions {
  radius : R;
  maxOffset : R;
  pointCount : nat
}.

(** The position after the [!hasActiveEffects] branch of [drawOrb]. *)
Definition settle (p : Layout) : Layout :=
  let targetX' := orbX p in
  let targetY' := orbY p in
  {| orbX := orbX p;
     orbY := orbY p;
     currentX := currentX p + (targetX' - currentX p) * 0.05;
     currentY := currentY p + (targetY' - currentY p) * 0.05;
     targetX := targetX';
     targetY := targetY' |}.

(** The target position chosen by the three volume bands of
    [updateOrbMovement], before it is clamped. *)
Definition moveTarget (time effectiveVolume : R) (thresholds : CalibrationData)
    (p : Layout) : R * R :=
  if Rlt_dec (cd_veryLoudThreshold thresholds) effectiveVolume then
    let agitation := (effectiveVolume - cd_veryLoudThreshold thresholds) * 2 in
    let moveAmount := agitation * 30 in
    let moveSpeed := 2 + agitation * 6 in
    (orbX p + sin (time * moveSpeed) * moveAmount
     + sin (time * moveSpeed * 1.3) * moveAmount * 0.5,
     orbY p + cos (time * moveSpeed * 0.8) * moveAmount
     + cos (time * moveSpeed * 1.2) * moveAmount * 0.4)
  else if Rlt_dec (cd_loudThreshold thresholds) effectiveVolume then
    let agitation := (effectiveVolume - cd_loudThreshold thresholds) * 3 in
    let moveAmount := agitation * 20 in
    let moveSpeed := 1.5 + agitation * 3 in
    (orbX p + sin (time * moveSpeed) * moveAmount,
     orbY p + cos (time * moveSpeed * 0.75) * moveAmount)
  else
    let adjustedVolume := Rmax 0 (effectiveVolume - cd_sensitivity thresholds) in
    let moveAmount := adjustedVolume * 12 in
    let moveSpeed := 1.2 + adjustedVolume * 2 in
    (orbX p + sin (time * moveSpeed) * moveAmount,
     orbY p + cos (time * moveSpeed * 0.9) * moveAmount).

(** [updateOrbMovement(effectiveVolume, thresholds)] *)
Definition updateOrbMovement (opts : Options) (time effectiveVolume : R)
    (thresholds : CalibrationData) (p : Layout) : Layout :=
  let '(tx, ty) := moveTarget time effectiveVolume thresholds p in
  let targetX' := Utils.clamp tx (orbX p - maxOffset opts) (orbX p + maxOffset opts) in
  let targetY' := Utils.clamp ty (orbY p - maxOffset opts) (orbY p + maxOffset opts) in
  let agitation := Rmax 0 (effectiveVolume - cd_sensitivity thresholds) in
  let positionSpeed := 0.02 + agitation * agitation * 0.06 in
  {| orbX := orbX p;
     orbY := orbY p;
     currentX := currentX p + (targetX' - currentX p) * positionSpeed;
     currentY := currentY p + (targetY' - currentY p) * positionSpeed;
     targetX := targetX';
     targetY := targetY' |}.

(** The two "conservative bounds" of [generateBlobPoints]. *)
Definition innerRadius (opts : Options) (fade : R) : R :=
  radius opts * (0.6 + (1 - fade) * 0.4).

Definition outerRadius (opts : Options) (fade adjustedVolume : R) : R :=
  radius opts * (1 + (1.8 + adjustedVolume * 0.7 - 1) * fade).

(** The radius [generateBlobPoints] gives the vertex at [vertexAngle]. *)
Definition vertexRadius (opts : Options) (time fade effectiveVolume : R)
    (thresholds : CalibrationData) (fs : ForceSystem.t) (vertexAngle : R) : R :=
  let forceInfluence := ForceSystem.getInfluenceAt vertexAngle fs * fade in
  let adjustedVolume := Rmax 0 (effectiveVolume - cd_sensitivity thresholds) in
  let audioAmplitude := adjustedVolume * 40 * fade in
  let wave1 := sin (vertexAngle * 2 + time * 2) * audioAmplitude in
  let wave2 := sin (vertexAngle * 3 - time * 1.5) * audioAmplitude * 0.6 in
  let wave3 := sin (vertexAngle * 1.5 + time * 2.5) * audioAmplitude * 0.4 in
  let organicNoise :=
    (sin (vertexAngle * 4 + time * 0.6) * 4
     + sin (vertexAngle * 5 - time * 0.4) * 2) * fade in
  let r := radius opts
           + (forceInfluence + wave1 + wave2 + wave3 + organicNoise) in
  let r1 := Rmax r (innerRadius opts fade) in
  Rmin r1 (outerRadius opts fade adjustedVolume).

(** [generateBlobPoints(effectiveVolume, thresholds)] *)
Definition generateBlobPoints (opts : Options) (time fade effectiveVolume : R)
    (thresholds : CalibrationData) (fs : ForceSystem.t) (p : Layout)
    : list BlobPoint :=
  map (fun i =>
         let vertexAngle := INR i / INR (pointCount opts) * PI * 2 in
         let r := vertexRadius opts time fade effectiveVolume thresholds fs
                    vertexAngle in
         {| x := currentX p + cos vertexAngle * r;
            y := currentY p + sin vertexAngle * r |})
      (seq 0 (pointCount opts)).

Definition midpoint (a b : BlobPoint) : BlobPoint :=
  {| x := (x a + x b) / 2; y := (y a + y b) / 2 |}.

(** The path [drawBlob] builds: the point of [moveTo], then the control
    point and the end point of every [quadraticCurveTo].  On an empty array
    [points[numPoints - 1]] is [undefined] and the call throws. *)
Definition drawBlob (points : list BlobPoint)
    : option (BlobPoint * list (BlobPoint * BlobPoint)) :=
  match points with
  | [] => None
  | first :: _ =>
      let numPoints := length points in
      Some (midpoint (nth (numPoints - 1) points first) (nth 0 points first),
            map (fun i =>
                   let current := nth i points first in
                   let next := nth ((i + 1) mod numPoints) points first in
                   (current, midpoint current next))
                (seq 0 numPoints))
  end.

(** What [drawOrb] paints. *)
Inductive Shape : Type :=
| Circle (centerX centerY r : R)
| Blob (path : option (BlobPoint * list (BlobPoint * BlobPoint))).

(** [drawOrb(effectiveVolume, thresholds, hasActiveEffects)]: the position
    after the call and the shape painted. *)
Definition drawOrb (opts : Options) (time fade effectiveVolume : R)
    (thresholds : CalibrationData) (hasActiveEffects : bool)
    (fs : ForceSystem.t) (p : Layout) : Layout * Shape :=
  if negb hasActiveEffects then
    let p' := settle p in
    (p', Circle (currentX p') (currentY p') (radius opts))
  else
    let p' := updateOrbMovement opts time effectiveVolume thresholds p in
    let blobPoints :=
      generateBlobPoints opts time fade effectiveVolume thresholds fs p' in
    (p', Blob (drawBlob blobPoints)).

(** The orb's centre is within [maxOffset] of its rest position. *)
Definition in_box (opts : Options) (p : Layout) : Prop :=
  Rabs (currentX p - orbX p) <= maxOffset opts
  /\ Rabs (currentY p - orbY p) <= maxOffset opts.

End OrbShape.

(** ** Scenarios used below *)

Module Scenario.

(** A pipeline in the middle of a calibration started at time [start], with
    [samples] collected so far. *)
Definition calibrating (start : R) (samples : list R) : AudioPipeline.t :=
  {| AudioPipeline.analyser := true;
     AudioPipeline.assistantAnalyser := false;
     AudioPipeline.isCalibrating := true;
     AudioPipeline.calibrationSamples := samples;
     AudioPipeline.calibrationStartTime := start;
     AudioPipeline.baselineNoise := 0.02;
     AudioPipeline.dynamicSensitivityThreshold := 0.08;
     AudioPipeline.dynamicLoudThreshold := 0.4;
     AudioPipeline.dynamicVeryLoudThreshold := 0.7;
     AudioPipeline.adaptiveGain := 1.0;
     AudioPipeline.volumeHistory := [] |}.

(** The samples of the spec's end-to-end scenario 2. *)
Definition noisySamples : list R := repeat 0.02 900 ++ repeat 0.5 100.

(** The calibration of that scenario, one sample before its end. *)
Definition noisyCalibration : AudioPipeline.t :=
  calibrating 0 (repeat 0.02 900 ++ repeat 0.5 99).

(** A calibration in a silent room, one sample before its end. *)
Definition silentCalibration : AudioPipeline.t :=
  calibrating 0 (repeat 0 999).

(** Analyser frames of 128 bins (fftSize 256) whose raw volumes are 0.1 and
    0.5: half the bins at 51, respectively 255, the others at 0. *)
Definition quietFrame : list byte := repeat Byte.x33 64 ++ repeat Byte.x00 64.
Definition loudFrame : list byte := repeat Byte.xff 64 ++ repeat Byte.x00 64.

(** A microphone session: calibration starts at time 0 and two quiet frames
    arrive at 400 and 800 ms, inside the calibration window. *)
Definition micWarmup : list AudioPipeline.call :=
  [ AudioPipeline.CInitMicrophone 0;
    AudioPipeline.CGetVolume microphone quietFrame 400 0;
    AudioPipeline.CGetVolume microphone quietFrame 800 0 ].

Definition warmedUp : AudioPipeline.t :=
  AudioPipeline.run micWarmup AudioPipeline.init.

(** Draws that spawn a force just below the angle 2*pi, with the slowest decay
    and speed. *)
Definition wrapDraws : ForceSystem.Draws :=
  {| ForceSystem.r_spawn := 0;
     ForceSystem.r_angle := 1 - 0.001 / PI;
     ForceSystem.r_decay := 0;
     ForceSystem.r_speed := 0 |}.

(** One loud frame (smoothed volume 0.58 over the default threshold 0.08) on
    a new force system, with those draws. *)
Definition wrappedForce : ForceSystem.t :=
  ForceSystem.update 0.58 0.08 wrapDraws (ForceSystem.create 0.05).

(** Draws that spawn a force at angle 0 with decay 0.014. *)
Definition midDraws : ForceSystem.Draws :=
  {| ForceSystem.r_spawn := 0;
     ForceSystem.r_angle := 0;
     ForceSystem.r_decay := 0.5;
     ForceSystem.r_speed := 0 |}.

(** One loud frame spawning a force, then 29 silent frames. *)
Definition spawned : ForceSystem.t :=
  ForceSystem.update 0.58 0.08 midDraws (ForceSystem.create 0.05).

Definition expiredForce : ForceSystem.t :=
  ForceSystem.updates 29 0 0.08 midDraws spawned.

(** Test mode: a frame whose synthetic volume is 0.05 and a frame whose
    synthetic volume is 0, both read when the clock shows 0. *)
Definition testFrame : VoiceOrb.Frame :=
  {| VoiceOrb.dataArray := [];
     VoiceOrb.nowVolume := 0;
     VoiceOrb.rnd := 0.5;
     VoiceOrb.nowAudio := 0;
     VoiceOrb.nowFade := 0;
     VoiceOrb.draws := midDraws |}.

Definition silentFrame : VoiceOrb.Frame :=
  {| VoiceOrb.dataArray := [];
     VoiceOrb.nowVolume := 0;
     VoiceOrb.rnd := 0;
     VoiceOrb.nowAudio := 0;
     VoiceOrb.nowFade := 0;
     VoiceOrb.draws := midDraws |}.

(** An orb with default options, in test mode, after one [testFrame]. *)
Definition testCalls : list VoiceOrb.call :=
  [ VoiceOrb.CStartTest; VoiceOrb.CDraw testFrame ].

Definition testOrb : VoiceOrb.t :=
  VoiceOrb.run testCalls (VoiceOrb.create VoiceOrb.DEFAULT_OPTIONS).

(** A calibrated pipeline that has processed 49 frames of raw volume 0.5. *)
Definition adaptingPipeline : AudioPipeline.t :=
  {| AudioPipeline.analyser := true;
     AudioPipeline.assistantAnalyser := false;
     AudioPipeline.isCalibrating := false;
     AudioPipeline.calibrationSamples := [];
     AudioPipeline.calibrationStartTime := 0;
     AudioPipeline.baselineNoise := 0.02;
     AudioPipeline.dynamicSensitivityThreshold := 0.08;
     AudioPipeline.dynamicLoudThreshold := 0.4;
     AudioPipeline.dynamicVeryLoudThreshold := 0.7;
     AudioPipeline.adaptiveGain := 1.0;
     AudioPipeline.volumeHistory := repeat 0.5 49 |}.

(** 63 silent frames of three calls each, with changing volumes, fade
    multipliers and draws: 126 [update] calls in all. *)
Definition silentFrameCalls : list ForceSystem.call :=
  [ ForceSystem.CSetFadeMultiplier 0.5;
    ForceSystem.CUpdate 0 0.08 midDraws;
    ForceSystem.CUpdate 0.08 0.08 wrapDraws ].

Definition silence : list ForceSystem.call :=
  concat (repeat silentFrameCalls 63).

(** A test-mode frame read two seconds after the last significant audio. *)
Definition lateFrame : VoiceOrb.Frame :=
  {| VoiceOrb.dataArray := [];
     VoiceOrb.nowVolume := 0;
     VoiceOrb.rnd := 0.5;
     VoiceOrb.nowAudio := 2000;
     VoiceOrb.nowFade := 2000;
     VoiceOrb.draws := midDraws |}.

(** The default radius, offset and vertex count, and an orb resting at the
    centre of a 400 x 400 canvas. *)
Definition shapeOptions : OrbShape.Options :=
  {| OrbShape.radius := 100; OrbShape.maxOffset := 50;
     OrbShape.pointCount := 24 |}.

Definition centred : OrbShape.Layout :=
  {| OrbShape.orbX := 200; OrbShape.orbY := 200;
     OrbShape.currentX := 200; OrbShape.currentY := 200;
     OrbShape.targetX := 200; OrbShape.targetY := 200 |}.

(** The thresholds of a new pipeline, and three vertices of a blob. *)
Definition defaultThresholds : CalibrationData :=
  AudioPipeline.getThresholds AudioPipeline.init.

Definition triangle : list OrbShape.BlobPoint :=
  [ {| OrbShape.x := 0; OrbShape.y := 0 |};
    {| OrbShape.x := 4; OrbShape.y := 0 |};
    {| OrbShape.x := 0; OrbShape.y := 2 |} ].

(** A noise system of 24 points built from a generator stuck at 0.5. *)
Definition evenDraws : nat -> R := fun _ => 0.5.

Definition noise24 : NoiseSystem.t := NoiseSystem.create 24 evenDraws.

End Scenario.

(** * Properties *)

(** Case analysis on the comparisons of the model. *)
Ltac rcases :=
  repeat match goal with
  | |- context [Rlt_dec ?a ?b] => destruct (Rlt_dec a b) in *
  | |- context [Rle_dec ?a ?b] => destruct (Rle_dec a b) in *
  | H : context [Rlt_dec ?a ?b] |- _ => destruct (Rlt_dec a b) in *
  | H : context [Rle_dec ?a ?b] |- _ => destruct (Rle_dec a b) in *
  end.

Ltac rminmax :=
  unfold Utils.clamp, Rmax, Rmin in *; rcases; try lra.

(** ** Sorting *)

Section Sorting.

Import JsArray.

Lemma insert_perm (x : R) (l : list R) : Permutation (x :: l) (insert x l).
Proof.
  induction l as [|y l IH]; simpl.
  - reflexivity.
  - destruct (Rle_dec x y).
    + reflexivity.
    + rewrite perm_swap. now apply perm_skip.
Qed.

Lemma sort_perm (l : list R) : Permutation l (sort l).
Proof.
  induction l as [|x l IH]; simpl.
  - constructor.
  - etransitivity; [apply perm_skip, IH | apply insert_perm].
Qed.

Lemma sort_length (l : list R) : length (sort l) = length l.
Proof. symmetry. apply Permutation_length, sort_perm. Qed.

Lemma insert_sorted (x : R) (l : list R) :
  StronglySorted Rle l -> StronglySorted Rle (insert x l).
Proof.
  induction 1 as [|y l Hs IH Hall]; simpl.
  - repeat constructor.
  - destruct (Rle_dec x y) as [Hxy|Hxy].
    + constructor.
      * now constructor.
      * constructor; [exact Hxy|].
        eapply Forall_impl; [|exact Hall]. intros z Hz. simpl in Hz. lra.
    + constructor; [exact IH|].
      eapply Permutation_Forall; [apply insert_perm|].
      constructor; [lra | exact Hall].
Qed.

Lemma sort_sorted (l : list R) : StronglySorted Rle (sort l).
Proof.
  induction l as [|x l IH]; simpl.
  - constructor.
  - now apply insert_sorted.
Qed.

(** Two ascending arrays with the same elements are the same array. *)
Lemma sorted_perm_eq (l1 l2 : list R) :
  StronglySorted Rle l1 -> StronglySorted Rle l2 -> Permutation l1 l2 ->
  l1 = l2.
Proof.
  revert l2. induction l1 as [|a l1 IH]; intros l2 H1 H2 HP.
  - apply Permutation_nil in HP. now subst.
  - destruct l2 as [|b l2].
    + symmetry in HP. apply Permutation_nil in HP. discriminate.
    + inversion H1 as [|? ? Hs1 Hall1]; subst.
      inversion H2 as [|? ? Hs2 Hall2]; subst.
      assert (Hab : a = b).
      { assert (In b (a :: l1)) as [->|Hb]
          by (eapply Permutation_in; [symmetry; exact HP | now left]);
          [reflexivity|].
        assert (In a (b :: l2)) as [->|Ha]
          by (eapply Permutation_in; [exact HP | now left]);
          [reflexivity|].
        rewrite Forall_forall in Hall1, Hall2.
        specialize (Hall1 _ Hb). specialize (Hall2 _ Ha). lra. }
      subst b. f_equal. apply IH; trivial.
      eapply Permutation_cons_inv; exact HP.
Qed.

(** [sort] returns the ascending arrangement, whatever the order collected. *)
Lemma sort_unique (l sorted : list R) :
  Permutation l sorted -> StronglySorted Rle sorted -> sort l = sorted.
Proof.
  intros HP Hs. apply sorted_perm_eq; [apply sort_sorted | exact Hs |].
  etransitivity; [symmetry; apply sort_perm | exact HP].
Qed.

Lemma repeat_sorted (x : R) (n : nat) : StronglySorted Rle (repeat x n).
Proof.
  induction n as [|n IH]; simpl; constructor; [exact IH|].
  apply Forall_forall. intros y Hy. apply repeat_spec in Hy. subst. lra.
Qed.

Lemma two_level_sorted (x y : R) (n m : nat) :
  x <= y -> StronglySorted Rle (repeat x n ++ repeat y m).
Proof.
  intros Hxy. induction n as [|n IH]; simpl.
  - apply repeat_sorted.
  - constructor; [exact IH|].
    apply Forall_app. split; apply Forall_forall; intros z Hz;
      apply repeat_spec in Hz; subst; lra.
Qed.

(** An array of identical samples is left alone by [sort]. *)
Lemma sort_constant (v : R) (l : list R) :
  Forall (eq v) l -> sort l = repeat v (length l).
Proof.
  intros Hall. apply sort_unique; [|apply repeat_sorted].
  induction Hall as [|x l Hx _ IH]; simpl; [constructor|].
  subst x. now constructor.
Qed.

End Sorting.

(** ** The audio pipeline *)

Section AudioPipelineFacts.

Import AudioPipeline.

Lemma clampGain_range (g : R) : 0.5 <= clampGain g <= 4.0.
Proof. unfold clampGain. rminmax. Qed.

Lemma clampGain_inside (g : R) : 0.5 <= g <= 4.0 -> clampGain g = g.
Proof. intros Hg. unfold clampGain. rminmax. Qed.

Lemma adaptGain_range (h : list R) (calibrating : bool) (g : R) :
  0.5 <= g <= 4.0 -> 0.5 <= adaptGain h calibrating g <= 4.0.
Proof.
  intros Hg. unfold adaptGain.
  destruct ((50 <=? length h)%nat && negb calibrating); [|exact Hg].
  cbv zeta. destruct (Rlt_dec 0.05 _); [apply clampGain_range | exact Hg].
Qed.

Lemma median_index_in_range (len : nat) :
  (0 < len)%nat -> (medianIndex len < len)%nat.
Proof. intros H. unfold medianIndex. apply Nat.div_lt; lia. Qed.

Lemma p90_index_in_range (len : nat) :
  (0 < len)%nat -> (p90Index len < len)%nat.
Proof.
  intros H. unfold p90Index. apply Nat.Div0.div_lt_upper_bound. lia.
Qed.

Lemma nth_repeat_in (x d : R) (n i : nat) :
  (i < n)%nat -> nth i (repeat x n) d = x.
Proof.
  intros Hi. apply (repeat_spec n x). apply nth_In. now rewrite repeat_length.
Qed.

(** *** Range of the processed volume *)

Lemma processVolumeAdaptively_fst (rawVolume : R) (s : t) :
  fst (processVolumeAdaptively rawVolume s)
  = Rmin (Rmax 0 (rawVolume - baselineNoise s) * adaptiveGain s) 1.0.
Proof. reflexivity. Qed.

Lemma adjusted_volume_range (rawVolume baseline gain : R) :
  0 <= gain -> 0 <= Rmin (Rmax 0 (rawVolume - baseline) * gain) 1.0 <= 1.
Proof.
  intros Hg.
  assert (0 <= Rmax 0 (rawVolume - baseline) * gain).
  { apply Rmult_le_pos; [apply Rmax_l | exact Hg]. }
  rminmax.
Qed.

(** C1: for a raw volume in [0,1] and a pipeline with baseline >= 0 and gain
    in [0.5, 4.0], the volume returned by [processVolumeAdaptively] lies in
    [0,1]. *)
Theorem processVolumeAdaptively_unit_range (rawVolume : R) (s : t) :
  0 <= rawVolume <= 1 ->
  0 <= baselineNoise s ->
  0.5 <= adaptiveGain s <= 4.0 ->
  0 <= fst (processVolumeAdaptively rawVolume s) <= 1.
Proof.
  intros _ _ Hg. rewrite processVolumeAdaptively_fst.
  apply adjusted_volume_range. lra.
Qed.

Lemma processVolumeAdaptively_unit_range_witness :
  (0 <= 0.5 <= 1 /\ 0 <= baselineNoise init /\ 0.5 <= adaptiveGain init <= 4.0)
  /\ 0 <= fst (processVolumeAdaptively 0.5 init) <= 1.
Proof.
  assert (H : 0 <= 0.5 <= 1 /\ 0 <= baselineNoise init
              /\ 0.5 <= adaptiveGain init <= 4.0) by (simpl; lra).
  split; [exact H|].
  destruct H as (Hr & Hb & Hg).
  exact (processVolumeAdaptively_unit_range 0.5 init Hr Hb Hg).
Defined.

(** *** The gain clamp *)

Lemma completeCalibration_gain (samples : list R) (s : t) :
  gain_in_range (completeCalibration samples s).
Proof. apply clampGain_range. Qed.

Lemma processCalibration_gain (volume now : R) (s : t) :
  gain_in_range s -> gain_in_range (snd (processCalibration volume now s)).
Proof.
  intros Hg. unfold processCalibration.
  destruct (isCalibrating s); simpl; [|exact Hg].
  destruct (Rle_dec _ _); simpl; [apply clampGain_range | exact Hg].
Qed.

Lemma processVolumeAdaptively_gain (rawVolume : R) (s : t) :
  gain_in_range s -> gain_in_range (snd (processVolumeAdaptively rawVolume s)).
Proof. intros Hg. apply adaptGain_range, Hg. Qed.

Lemma processedVolume_gain (mode : AudioMode) (rawVolume : R) (s : t) :
  gain_in_range s -> gain_in_range (snd (processedVolume mode rawVolume s)).
Proof.
  intros Hg. unfold processedVolume.
  destruct (AudioMode_eqb mode assistant); simpl; [exact Hg|].
  apply adaptGain_range, Hg.
Qed.

Lemma getVolume_gain mode dataArray now rnd (s : t) :
  gain_in_range s -> gain_in_range (snd (getVolume mode dataArray now rnd s)).
Proof.
  intros Hg. unfold getVolume.
  destruct (AudioMode_eqb mode test); [exact Hg|].
  cbv zeta. destruct (negb _); [exact Hg|].
  destruct (isCalibrating s) eqn:Hcal; [|now apply processedVolume_gain].
  pose proof (processCalibration_gain (rawVolumeOf dataArray) now s Hg) as Hc.
  destruct (processCalibration _ _ _) as [complete s1]; simpl in Hc.
  destruct complete; simpl; [now apply processedVolume_gain | exact Hc].
Qed.

Lemma cleanup_gain (s : t) : gain_in_range (cleanup s).
Proof. unfold gain_in_range; simpl; lra. Qed.

Lemma step_gain (s : t) (c : call) : gain_in_range s -> gain_in_range (step s c).
Proof.
  intros Hg. destruct c; simpl;
    [ unfold gain_in_range; simpl; lra
    | apply cleanup_gain
    | unfold gain_in_range; simpl; lra
    | now apply getVolume_gain
    | apply cleanup_gain ].
Qed.

Lemma run_gain (calls : list call) (s : t) :
  gain_in_range s -> gain_in_range (run calls s).
Proof.
  revert s. induction calls as [|c calls IH]; intros s Hg; simpl.
  - exact Hg.
  - apply IH, step_gain, Hg.
Qed.

(** C2: starting from the default gain 1.0, after any sequence of calls the
    gain lies in [0.5, 4.0], and it still does after a further
    [processVolumeAdaptively] call and after a further [processCalibration]
    call, whether or not that call completes the calibration. *)
Theorem adaptiveGain_clamp_invariant (calls : list call) :
  let s := run calls init in
  gain_in_range s
  /\ (forall rawVolume,
        gain_in_range (snd (processVolumeAdaptively rawVolume s)))
  /\ (forall volume now,
        gain_in_range (snd (processCalibration volume now s))).
Proof.
  assert (H : gain_in_range (run calls init)).
  { apply run_gain. unfold gain_in_range; simpl; lra. }
  repeat split; intros;
    try apply processVolumeAdaptively_gain;
    try apply processCalibration_gain; apply H.
Qed.

(** *** Calibration *)

(** What [processCalibration] does on the call that ends the window. *)
Lemma processCalibration_complete (volume now : R) (s : t) :
  isCalibrating s = true ->
  CALIBRATION_DURATION <= now - calibrationStartTime s ->
  processCalibration volume now s
  = (true, completeCalibration (calibrationSamples s ++ [volume]) s).
Proof.
  intros Hcal Hel. unfold processCalibration. rewrite Hcal. simpl.
  destruct (Rle_dec _ _); [reflexivity | contradiction].
Qed.

(** ... and on a call inside the window. *)
Lemma processCalibration_pending (volume now : R) (s : t) :
  isCalibrating s = true ->
  now - calibrationStartTime s < CALIBRATION_DURATION ->
  fst (processCalibration volume now s) = false
  /\ isCalibrating (snd (processCalibration volume now s)) = true
  /\ calibrationSamples (snd (processCalibration volume now s))
     = calibrationSamples s ++ [volume].
Proof.
  intros Hcal Hel. unfold processCalibration. rewrite Hcal. simpl.
  destruct (Rle_dec _ _); [lra | now simpl].
Qed.

(** Calibration on samples that take two values, [lo] on the ranks read for
    the median and [hi] on the rank read for the 90th percentile. *)
Lemma completeCalibration_two_level (lo hi : R) (n m : nat)
    (samples : list R) (s : t) :
  lo <= hi ->
  Permutation samples (repeat lo n ++ repeat hi m) ->
  (medianIndex (n + m) < n)%nat ->
  (n <= p90Index (n + m) < n + m)%nat ->
  let s' := completeCalibration samples s in
  baselineNoise s' = Rmax 0.01 lo
  /\ adaptiveGain s'
     = clampGain (if Rlt_dec 0.05 (hi - Rmax 0.01 lo)
                  then 0.8 / (hi - Rmax 0.01 lo) else 2.0).
Proof.
  intros Hle HP Hmed Hp90. unfold completeCalibration. cbv zeta.
  rewrite (sort_unique samples _ HP (two_level_sorted lo hi n m Hle)).
  rewrite length_app, !repeat_length.
  assert (Hm : JsArray.get (repeat lo n ++ repeat hi m) (medianIndex (n + m)) = lo).
  { unfold JsArray.get. rewrite app_nth1 by now rewrite repeat_length.
    now apply nth_repeat_in. }
  assert (Hp : JsArray.get (repeat lo n ++ repeat hi m) (p90Index (n + m)) = hi).
  { unfold JsArray.get. rewrite app_nth2 by (rewrite repeat_length; lia).
    rewrite repeat_length. apply nth_repeat_in. lia. }
  rewrite Hm, Hp. simpl. split; reflexivity.
Qed.

(** The result of the spec's scenario 2, for any arrangement of its
    samples. *)
Lemma noisy_calibration_result (samples : list R) (s : t) :
  Permutation samples Scenario.noisySamples ->
  baselineNoise (completeCalibration samples s) = 0.02
  /\ adaptiveGain (completeCalibration samples s) = 5 / 3.
Proof.
  intros HP.
  destruct (completeCalibration_two_level 0.02 0.5 900 100 samples s)
    as [Hb Hg]; [lra | exact HP | vm_compute; lia | vm_compute; lia |].
  assert (Hmax : Rmax 0.01 0.02 = 0.02) by rminmax.
  rewrite Hb, Hg, Hmax. split; [reflexivity|].
  destruct (Rlt_dec 0.05 (0.5 - 0.02)); [|lra].
  rewrite clampGain_inside by lra. lra.
Qed.

(** C3 (as the code behaves): calibration completed on any arrangement of
    the samples [0.02]*900 ++ [0.5]*100 yields baseline 0.02 and gain
    0.8 / 0.48 = 5/3; the noise range 0.48 exceeds 0.05 and the raw gain
    already lies inside [0.5, 4.0], so the clamp changes nothing. *)
Theorem calibration_noisy_scenario (volume now : R) (s : t) :
  isCalibrating s = true ->
  Permutation (calibrationSamples s ++ [volume]) Scenario.noisySamples ->
  CALIBRATION_DURATION <= now - calibrationStartTime s ->
  fst (processCalibration volume now s) = true
  /\ baselineNoise (snd (processCalibration volume now s)) = 0.02
  /\ adaptiveGain (snd (processCalibration volume now s)) = 5 / 3
  /\ clampGain (0.8 / (0.5 - 0.02)) = 0.8 / (0.5 - 0.02).
Proof.
  intros Hcal HP Hel.
  rewrite (processCalibration_complete volume now s Hcal Hel). cbn [fst snd].
  destruct (noisy_calibration_result _ s HP) as [Hb Hg].
  repeat split; trivial.
  apply clampGain_inside; lra.
Qed.

Lemma noisySamples_collected :
  Permutation (calibrationSamples Scenario.noisyCalibration ++ [0.5])
    Scenario.noisySamples.
Proof.
  unfold Scenario.noisySamples.
  change (calibrationSamples Scenario.noisyCalibration)
    with (repeat 0.02 900 ++ repeat 0.5 99).
  rewrite <- app_assoc. apply Permutation_app_head.
  change (repeat 0.5 100) with (0.5 :: repeat 0.5 99).
  symmetry. apply Permutation_cons_append.
Defined.

Lemma noisyCalibration_elapsed :
  CALIBRATION_DURATION
  <= 1000 - calibrationStartTime Scenario.noisyCalibration.
Proof. unfold CALIBRATION_DURATION; simpl; lra. Defined.

Lemma calibration_noisy_scenario_witness :
  (isCalibrating Scenario.noisyCalibration = true
   /\ Permutation (calibrationSamples Scenario.noisyCalibration ++ [0.5])
        Scenario.noisySamples
   /\ CALIBRATION_DURATION
      <= 1000 - calibrationStartTime Scenario.noisyCalibration)
  /\ baselineNoise (snd (processCalibration 0.5 1000 Scenario.noisyCalibration))
     = 0.02
  /\ adaptiveGain (snd (processCalibration 0.5 1000 Scenario.noisyCalibration))
     = 5 / 3.
Proof.
  split;
    [split; [reflexivity
            | split; [exact noisySamples_collected
                     | exact noisyCalibration_elapsed]]|].
  destruct (calibration_noisy_scenario 0.5 1000 Scenario.noisyCalibration eq_refl
              noisySamples_collected noisyCalibration_elapsed)
    as (_ & Hb & Hg & _).
  split; assumption.
Defined.

(** C3 (as stated, refuted): on those samples the gain is not 0.5. *)
Lemma calibration_noisy_scenario_gain_not_floor :
  ~ (baselineNoise (snd (processCalibration 0.5 1000 Scenario.noisyCalibration))
     = 0.02
     /\ adaptiveGain (snd (processCalibration 0.5 1000 Scenario.noisyCalibration))
        = 0.5).
Proof.
  intros [_ Hg].
  rewrite (processCalibration_complete 0.5 1000 Scenario.noisyCalibration
             eq_refl noisyCalibration_elapsed) in Hg.
  cbn [snd] in Hg.
  destruct (noisy_calibration_result _ Scenario.noisyCalibration
              noisySamples_collected) as [_ Hg'].
  rewrite Hg' in Hg. lra.
Qed.

(** Calibration on identical samples. *)
Lemma constant_calibration_result (v : R) (samples : list R) (s : t) :
  (0 < length samples)%nat ->
  Forall (eq v) samples ->
  baselineNoise (completeCalibration samples s) = Rmax 0.01 v
  /\ adaptiveGain (completeCalibration samples s) = 2.0.
Proof.
  intros Hlen Hall. unfold completeCalibration. cbv zeta.
  rewrite (sort_constant v samples Hall), repeat_length.
  unfold JsArray.get.
  rewrite !nth_repeat_in
    by (apply median_index_in_range || apply p90_index_in_range; exact Hlen).
  cbn [baselineNoise adaptiveGain]. split; [reflexivity|].
  destruct (Rlt_dec 0.05 (v - Rmax 0.01 v)) as [Hlt|_].
  - exfalso. revert Hlt. rminmax.
  - apply clampGain_inside. lra.
Qed.

(** Inside the window [observeAll] only collects. *)
Lemma observeAll_pending (v : R) (times : list R) (s : t) :
  isCalibrating s = true ->
  Forall (fun now => now - calibrationStartTime s < CALIBRATION_DURATION) times ->
  let s' := observeAll v times s in
  isCalibrating s' = true
  /\ calibrationStartTime s' = calibrationStartTime s
  /\ calibrationSamples s' = calibrationSamples s ++ repeat v (length times).
Proof.
  revert s. induction times as [|now times IH]; intros s Hcal Hall; simpl.
  - now rewrite app_nil_r.
  - inversion Hall as [|? ? Hnow Hrest]; subst.
    destruct (processCalibration_pending v now s Hcal Hnow) as (_ & Hc & Hs).
    assert (Hstart : calibrationStartTime (snd (processCalibration v now s))
                     = calibrationStartTime s).
    { unfold processCalibration. rewrite Hcal. simpl.
      destruct (Rle_dec _ _); reflexivity. }
    destruct (IH (snd (processCalibration v now s)) Hc) as (Hc' & Hst' & Hs').
    { now rewrite Hstart. }
    unfold observeAll in *. rewrite Hc', Hst', Hs', Hs, Hstart, <- app_assoc.
    now simpl.
Qed.

(** C4 (as the code behaves): a calibration started at [start] that observes
    the same sample [v] on every call, the calls at [times] falling inside
    the window and the call at [now] ending it, completes with baseline
    [max(0.01, v)], which is [v] when [v >= 0.01], and with gain 2.0. *)
Theorem calibration_identical_samples (v start now : R) (times : list R) (s0 : t) :
  Forall (fun t => t - start < CALIBRATION_DURATION) times ->
  CALIBRATION_DURATION <= now - start ->
  let s := observeAll v times (startCalibration start s0) in
  let r := processCalibration v now s in
  fst r = true
  /\ isCalibrating (snd r) = false
  /\ baselineNoise (snd r) = Rmax 0.01 v
  /\ (0.01 <= v -> baselineNoise (snd r) = v)
  /\ adaptiveGain (snd r) = 2.0.
Proof.
  intros Hin Hend. cbv zeta.
  destruct (observeAll_pending v times (startCalibration start s0) eq_refl Hin)
    as (Hcal & Hstart & Hsamples).
  simpl in Hstart, Hsamples.
  set (s := observeAll v times (startCalibration start s0)) in *. clearbody s.
  assert (Hel : CALIBRATION_DURATION <= now - calibrationStartTime s)
    by now rewrite Hstart.
  rewrite (processCalibration_complete v now s Hcal Hel). cbn [fst snd].
  destruct (constant_calibration_result v (calibrationSamples s ++ [v]) s)
    as [Hb Hg].
  { rewrite length_app. simpl. lia. }
  { rewrite Hsamples. apply Forall_app. split; [|now constructor].
    apply Forall_forall. intros x Hx. apply repeat_spec in Hx. now subst. }
  repeat split; trivial.
  intros Hv. rewrite Hb. rminmax.
Qed.

Lemma calibration_identical_samples_witness :
  (Forall (fun t => t - 0 < CALIBRATION_DURATION) [400; 800]
   /\ CALIBRATION_DURATION <= 1000 - 0)
  /\ baselineNoise
       (snd (processCalibration 0.3 1000
               (observeAll 0.3 [400; 800] (startCalibration 0 init)))) = 0.3.
Proof.
  assert (Hin : Forall (fun t => t - 0 < CALIBRATION_DURATION) [400; 800])
    by (unfold CALIBRATION_DURATION; repeat constructor; lra).
  assert (Hend : CALIBRATION_DURATION <= 1000 - 0)
    by (unfold CALIBRATION_DURATION; lra).
  split; [split; assumption|].
  destruct (calibration_identical_samples 0.3 0 1000 [400; 800] init Hin Hend)
    as (_ & _ & _ & Hv & _).
  apply Hv. lra.
Defined.

Lemma silentCalibration_elapsed :
  CALIBRATION_DURATION
  <= 1000 - calibrationStartTime Scenario.silentCalibration.
Proof. unfold CALIBRATION_DURATION; simpl; lra. Qed.

(** C4 (as stated, refuted): a thousand samples of value 0 give the baseline
    0.01, not 0. *)
Lemma calibration_silence_baseline_floor :
  baselineNoise (snd (processCalibration 0 1000 Scenario.silentCalibration)) = 0.01
  /\ baselineNoise (snd (processCalibration 0 1000 Scenario.silentCalibration)) <> 0.
Proof.
  rewrite (processCalibration_complete 0 1000 Scenario.silentCalibration
             eq_refl silentCalibration_elapsed).
  cbn [snd].
  destruct (constant_calibration_result 0
              (calibrationSamples Scenario.silentCalibration ++ [0])
              Scenario.silentCalibration) as [Hb _].
  { rewrite length_app. simpl length. lia. }
  { apply Forall_app. split; [|now constructor].
    apply Forall_forall. intros x Hx. apply repeat_spec in Hx. now subst. }
  rewrite Hb. rminmax.
Qed.

(** *** Output while calibrating *)

Lemma byteSum_from (dataArray : list byte) (acc : R) :
  fold_left (fun sum b => sum + byteValue b) dataArray acc
  = acc + byteSum dataArray.
Proof.
  unfold byteSum. revert acc.
  induction dataArray as [|b l IH]; intros acc; simpl.
  - lra.
  - rewrite IH, (IH (0 + byteValue b)). lra.
Qed.

Lemma byteSum_app (l1 l2 : list byte) :
  byteSum (l1 ++ l2) = byteSum l1 + byteSum l2.
Proof. unfold byteSum at 1. rewrite fold_left_app. apply byteSum_from. Qed.

Lemma byteSum_repeat (b : byte) (n : nat) :
  byteSum (repeat b n) = INR n * byteValue b.
Proof.
  induction n as [|n IH].
  - simpl. unfold byteSum. simpl. lra.
  - change (repeat b (S n)) with ([b] ++ repeat b n).
    rewrite byteSum_app, IH, S_INR. unfold byteSum. simpl. lra.
Qed.

Lemma byteValue_range (b : byte) : 0 <= byteValue b <= 255.
Proof.
  unfold byteValue. pose proof (Byte.to_N_bounded b) as Hb.
  split; [apply IZR_le; lia | apply IZR_le; lia].
Qed.

Lemma byteSum_range (dataArray : list byte) :
  0 <= byteSum dataArray <= 255 * INR (length dataArray).
Proof.
  induction dataArray as [|b l IH].
  - unfold byteSum. simpl. lra.
  - change (b :: l) with ([b] ++ l). rewrite byteSum_app.
    change (length ([b] ++ l)) with (S (length l)). rewrite S_INR.
    pose proof (byteValue_range b). unfold byteSum at 1 3. simpl. lra.
Qed.

(** The raw volume read from a frame is a number of [0, 1]. *)
Lemma rawVolumeOf_range (dataArray : list byte) :
  dataArray <> [] -> 0 <= rawVolumeOf dataArray <= 1.
Proof.
  intros Hne. unfold rawVolumeOf.
  pose proof (byteSum_range dataArray) as [Hlo _].
  assert (0 <= byteSum dataArray / INR (length dataArray) / 255).
  { apply Rmult_le_pos; [|lra]. apply Rmult_le_pos; [exact Hlo|].
    left. apply Rinv_0_lt_compat, lt_0_INR.
    destruct dataArray; [contradiction | simpl; lia]. }
  rminmax.
Qed.

Lemma quietFrame_volume : rawVolumeOf Scenario.quietFrame = 0.1.
Proof.
  unfold rawVolumeOf, Scenario.quietFrame.
  rewrite byteSum_app, !byteSum_repeat, length_app, !repeat_length.
  change (byteValue Byte.x33) with 51. change (byteValue Byte.x00) with 0.
  change (INR (64 + 64)) with (INR 128).
  rewrite !INR_IZR_INZ. simpl Z.of_nat. rminmax.
Qed.

Lemma loudFrame_volume : rawVolumeOf Scenario.loudFrame = 0.5.
Proof.
  unfold rawVolumeOf, Scenario.loudFrame.
  rewrite byteSum_app, !byteSum_repeat, length_app, !repeat_length.
  change (byteValue Byte.xff) with 255. change (byteValue Byte.x00) with 0.
  change (INR (64 + 64)) with (INR 128).
  rewrite !INR_IZR_INZ. simpl Z.of_nat. rminmax.
Qed.

(** [getVolume] on a frame that falls inside the calibration window. *)
Lemma getVolume_pending mode dataArray now rnd (s : t) :
  mode <> test ->
  isCalibrating s = true ->
  now - calibrationStartTime s < CALIBRATION_DURATION ->
  fst (getVolume mode dataArray now rnd s) = 0
  /\ isCalibrating (snd (getVolume mode dataArray now rnd s)) = true.
Proof.
  intros Hmode Hcal Hel. unfold getVolume.
  destruct (AudioMode_eqb mode test) eqn:Htest;
    [destruct mode; discriminate || contradiction|].
  cbv zeta. destruct (negb _); [now simpl|].
  rewrite Hcal.
  destruct (processCalibration_pending (rawVolumeOf dataArray) now s Hcal Hel)
    as (Hf & Hc & _).
  destruct (processCalibration _ _ _) as [complete s1]; simpl in *.
  subst complete. now simpl.
Qed.

(** [getVolume] on the microphone frame that ends the window. *)
Lemma getVolume_completing dataArray now rnd (s : t) :
  analyser s = true ->
  isCalibrating s = true ->
  CALIBRATION_DURATION <= now - calibrationStartTime s ->
  getVolume microphone dataArray now rnd s
  = processVolumeAdaptively (rawVolumeOf dataArray)
      (completeCalibration
         (calibrationSamples s ++ [rawVolumeOf dataArray]) s).
Proof.
  intros Han Hcal Hel. unfold getVolume. cbn [AudioMode_eqb].
  rewrite Han, Hcal. cbn [negb].
  now rewrite (processCalibration_complete _ now s Hcal Hel).
Qed.

(** [getVolume] on the frame that ends the window, in any mode that reads
    an analyser: the calibration is completed on the samples with this
    frame's raw volume added, and the frame goes through the usual
    processing on the calibrated pipeline. *)
Lemma getVolume_completing_any mode dataArray now rnd (s : t) :
  mode <> test ->
  (if AudioMode_eqb mode assistant then assistantAnalyser s else analyser s)
  = true ->
  isCalibrating s = true ->
  CALIBRATION_DURATION <= now - calibrationStartTime s ->
  getVolume mode dataArray now rnd s
  = processedVolume mode (rawVolumeOf dataArray)
      (completeCalibration
         (calibrationSamples s ++ [rawVolumeOf dataArray]) s).
Proof.
  intros Hmode Han Hcal Hel. unfold getVolume.
  destruct (AudioMode_eqb mode test) eqn:Htest;
    [destruct mode; discriminate || contradiction|].
  cbv zeta. rewrite Han, Hcal. cbn [negb].
  now rewrite (processCalibration_complete _ now s Hcal Hel).
Qed.

(** C5 (as the code behaves): on a frame read outside test mode while
    calibration is in progress, the output is 0 and calibration stays in
    progress as long as the window has not elapsed; an output other than 0
    comes only from the frame that completes the calibration; and that
    frame, when its analyser is there, returns the processed volume of its
    own sample: the calibration is completed on the samples with this
    sample added, and the result is what [processedVolume] returns for the
    sample on the calibrated pipeline, outside assistant mode
    [min(max(0, raw - baseline) * gain, 1)] with the new baseline and
    gain. *)
Theorem getVolume_silent_inside_window mode dataArray now rnd (s : t) :
  mode <> test ->
  isCalibrating s = true ->
  let r := getVolume mode dataArray now rnd s in
  let rawVolume := rawVolumeOf dataArray in
  let calibrated :=
    completeCalibration (calibrationSamples s ++ [rawVolume]) s in
  (now - calibrationStartTime s < CALIBRATION_DURATION ->
   fst r = 0 /\ isCalibrating (snd r) = true)
  /\ (fst r <> 0 ->
      CALIBRATION_DURATION <= now - calibrationStartTime s
      /\ isCalibrating (snd r) = false)
  /\ (CALIBRATION_DURATION <= now - calibrationStartTime s ->
      (if AudioMode_eqb mode assistant then assistantAnalyser s
       else analyser s) = true ->
      r = processedVolume mode rawVolume calibrated
      /\ isCalibrating (snd r) = false
      /\ (mode <> assistant ->
          fst r = Rmin (Rmax 0 (rawVolume - baselineNoise calibrated)
                        * adaptiveGain calibrated) 1.0
          /\ snd r = snd (processVolumeAdaptively rawVolume calibrated))).
Proof.
  intros Hmode Hcal. cbv zeta. split; [|split].
  - now apply getVolume_pending.
  - intros Hout.
    destruct (Rle_dec CALIBRATION_DURATION (now - calibrationStartTime s))
      as [Hel|Hel].
    + split; [exact Hel|]. revert Hout. unfold getVolume.
      destruct (AudioMode_eqb mode test) eqn:Htest;
        [destruct mode; discriminate || contradiction|].
      cbv zeta. destruct (negb _); [simpl; intros Hout; now elim Hout|].
      rewrite Hcal, (processCalibration_complete _ now s Hcal Hel).
      cbn [negb]. intros _. unfold processedVolume.
      destruct (AudioMode_eqb mode assistant); reflexivity.
    + exfalso. apply Hout. apply getVolume_pending; trivial. lra.
  - intros Hel Han.
    rewrite (getVolume_completing_any mode dataArray now rnd s Hmode Han Hcal Hel).
    split; [reflexivity|]. unfold processedVolume.
    destruct (AudioMode_eqb mode assistant) eqn:Hassist.
    + split; [reflexivity|]. intros Hna. destruct mode; try discriminate.
      now elim Hna.
    + split; [reflexivity|]. intros _. split; reflexivity.
Qed.

(** A microphone frame inside the window is collected and muted. *)
Lemma getVolume_collects dataArray now rnd (start : R) (samples : list R) :
  now - start < CALIBRATION_DURATION ->
  getVolume microphone dataArray now rnd (Scenario.calibrating start samples)
  = (0, Scenario.calibrating start (samples ++ [rawVolumeOf dataArray])).
Proof.
  intros Hel. unfold getVolume, processCalibration.
  cbn [AudioMode_eqb Scenario.calibrating analyser isCalibrating negb
       calibrationStartTime calibrationSamples].
  destruct (Rle_dec CALIBRATION_DURATION (now - start)); [lra | reflexivity].
Qed.

Lemma warmedUp_state :
  Scenario.warmedUp = Scenario.calibrating 0 [0.1; 0.1].
Proof.
  unfold Scenario.warmedUp, Scenario.micWarmup, run.
  cbn [fold_left step].
  change (initMicrophone 0 init) with (Scenario.calibrating 0 []).
  rewrite getVolume_collects by (unfold CALIBRATION_DURATION; lra).
  cbn [snd].
  rewrite getVolume_collects by (unfold CALIBRATION_DURATION; lra).
  cbn [snd app]. now rewrite quietFrame_volume.
Qed.

Lemma getVolume_silent_inside_window_witness :
  (microphone <> test /\ isCalibrating Scenario.warmedUp = true)
  /\ fst (getVolume microphone Scenario.quietFrame 900 0 Scenario.warmedUp) = 0
  /\ getVolume microphone Scenario.loudFrame 1000 0 Scenario.warmedUp
     = processedVolume microphone (rawVolumeOf Scenario.loudFrame)
         (completeCalibration
            (calibrationSamples Scenario.warmedUp
             ++ [rawVolumeOf Scenario.loudFrame]) Scenario.warmedUp).
Proof.
  assert (Hm : microphone <> test) by discriminate.
  assert (Hc : isCalibrating Scenario.warmedUp = true)
    by (rewrite warmedUp_state; reflexivity).
  split; [split; assumption|]. split.
  - apply (proj1 (getVolume_silent_inside_window microphone Scenario.quietFrame
                    900 0 Scenario.warmedUp Hm Hc)).
    rewrite warmedUp_state. unfold CALIBRATION_DURATION. simpl. lra.
  - apply (proj2 (proj2 (getVolume_silent_inside_window microphone
                           Scenario.loudFrame 1000 0 Scenario.warmedUp Hm Hc))).
    + rewrite warmedUp_state. unfold CALIBRATION_DURATION. simpl. lra.
    + rewrite warmedUp_state. reflexivity.
Defined.

(** C5 (as stated, refuted): calibration is in progress when the loud frame
    at 1000 ms is read, and the volume returned for that frame is 0.8. *)
Lemma getVolume_completing_frame_audible :
  isCalibrating Scenario.warmedUp = true
  /\ fst (getVolume microphone Scenario.loudFrame 1000 0 Scenario.warmedUp) = 0.8
  /\ fst (getVolume microphone Scenario.loudFrame 1000 0 Scenario.warmedUp) <> 0.
Proof.
  rewrite warmedUp_state. split; [reflexivity|].
  assert (Hel : CALIBRATION_DURATION
                <= 1000 - calibrationStartTime (Scenario.calibrating 0 [0.1; 0.1]))
    by (unfold CALIBRATION_DURATION; simpl; lra).
  rewrite (getVolume_completing Scenario.loudFrame 1000 0
             (Scenario.calibrating 0 [0.1; 0.1]) eq_refl eq_refl Hel).
  rewrite processVolumeAdaptively_fst, loudFrame_volume.
  destruct (completeCalibration_two_level 0.1 0.5 2 1
              (calibrationSamples (Scenario.calibrating 0 [0.1; 0.1]) ++ [0.5])
              (Scenario.calibrating 0 [0.1; 0.1])) as [Hb Hg];
    [lra | reflexivity | vm_compute; lia | vm_compute; lia |].
  rewrite Hb, Hg.
  assert (Hmax : Rmax 0.01 0.1 = 0.1) by rminmax. rewrite Hmax.
  destruct (Rlt_dec 0.05 (0.5 - 0.1)); [|lra].
  rewrite clampGain_inside by lra.
  assert (Hout : Rmin (Rmax 0 (0.5 - 0.1) * (0.8 / (0.5 - 0.1))) 1.0 = 0.8)
    by rminmax.
  rewrite Hout. split; lra.
Qed.

(** *** The volume history *)

Lemma pushHistory_length (rawVolume : R) (h : list R) :
  (length h <= VOLUME_HISTORY_SIZE)%nat ->
  (length (pushHistory rawVolume h) <= VOLUME_HISTORY_SIZE)%nat.
Proof.
  intros Hlen. unfold pushHistory. cbv zeta.
  destruct (Nat.ltb_spec VOLUME_HISTORY_SIZE (length (h ++ [rawVolume])))
    as [Hgt|Hle]; [|exact Hle].
  rewrite length_app in Hgt. simpl in Hgt.
  destruct h as [|x h]; simpl in *; [lia|].
  rewrite length_app. simpl. lia.
Qed.

(** The history after a push is the old history with the new sample at its
    end, minus at most one element at its front. *)
Lemma pushHistory_shape (rawVolume : R) (h : list R) :
  exists dropped,
    dropped ++ pushHistory rawVolume h = h ++ [rawVolume]
    /\ (length dropped <= 1)%nat.
Proof.
  unfold pushHistory. cbv zeta.
  destruct (VOLUME_HISTORY_SIZE <? length (h ++ [rawVolume]))%nat.
  - destruct h as [|x h]; simpl.
    + exists [rawVolume]. split; [reflexivity | simpl; lia].
    + exists [x]. split; [reflexivity | simpl; lia].
  - exists []. split; [reflexivity | simpl; lia].
Qed.

Lemma pushHistory_last (rawVolume d : R) (h : list R) :
  (length h <= VOLUME_HISTORY_SIZE)%nat ->
  last (pushHistory rawVolume h) d = rawVolume.
Proof.
  intros Hlen. unfold pushHistory. cbv zeta.
  destruct (Nat.ltb_spec VOLUME_HISTORY_SIZE (length (h ++ [rawVolume])))
    as [Hgt|Hle]; [|apply last_last].
  rewrite length_app in Hgt. simpl in Hgt.
  destruct h as [|x h]; [unfold VOLUME_HISTORY_SIZE in Hgt; simpl in Hgt; lia|].
  simpl JsArray.shift. apply last_last.
Qed.

Lemma processedVolume_history mode rawVolume (s : t) :
  history_bounded s -> history_bounded (snd (processedVolume mode rawVolume s)).
Proof.
  intros Hb. unfold processedVolume.
  destruct (AudioMode_eqb mode assistant); [exact Hb|].
  now apply pushHistory_length.
Qed.

Lemma processCalibration_history volume now (s : t) :
  volumeHistory (snd (processCalibration volume now s)) = volumeHistory s.
Proof.
  unfold processCalibration. destruct (negb _); [reflexivity|].
  cbv zeta. destruct (Rle_dec _ _); reflexivity.
Qed.

Lemma step_history (s : t) (c : call) :
  history_bounded s -> history_bounded (step s c).
Proof.
  intros Hb. destruct c; try (unfold history_bounded; simpl; lia).
  unfold step, getVolume.
  destruct (AudioMode_eqb mode test); [exact Hb|].
  cbv zeta. destruct (negb _); [exact Hb|].
  destruct (isCalibrating s); [|now apply processedVolume_history].
  pose proof (processCalibration_history (rawVolumeOf dataArray) now s) as Hh.
  destruct (processCalibration _ _ _) as [complete s1]. simpl in Hh.
  assert (Hb1 : history_bounded s1) by (unfold history_bounded; now rewrite Hh).
  destruct complete; simpl; [now apply processedVolume_history | exact Hb1].
Qed.

Lemma run_history (calls : list call) (s : t) :
  history_bounded s -> history_bounded (run calls s).
Proof.
  revert s. induction calls as [|c calls IH]; intros s Hb; simpl.
  - exact Hb.
  - apply IH, step_history, Hb.
Qed.

(** C6 (as the code behaves): after any sequence of calls the volume history
    holds at most 100 elements, and a further [processVolumeAdaptively] call
    appends the raw volume it was given (before baseline subtraction),
    dropping the oldest element when that is needed to stay within 100. *)
Theorem volumeHistory_raw_and_bounded (calls : list call) (rawVolume : R) :
  let s := run calls init in
  let s' := snd (processVolumeAdaptively rawVolume s) in
  (length (volumeHistory s) <= 100)%nat
  /\ (length (volumeHistory s') <= 100)%nat
  /\ last (volumeHistory s') 0 = rawVolume
  /\ exists dropped,
       dropped ++ volumeHistory s' = volumeHistory s ++ [rawVolume]
       /\ (length dropped <= 1)%nat.
Proof.
  cbv zeta.
  assert (Hb : history_bounded (run calls init)).
  { apply run_history. unfold history_bounded. simpl. lia. }
  split; [exact Hb|]. cbn [snd processVolumeAdaptively volumeHistory].
  split; [now apply pushHistory_length|].
  split; [now apply pushHistory_last | apply pushHistory_shape].
Qed.

(** C6 (as stated, refuted): on a new pipeline the raw volume 0.5 is stored
    as 0.5, while its post-baseline value is 0.48. *)
Lemma volumeHistory_stores_raw_volume :
  volumeHistory (snd (processVolumeAdaptively 0.5 init)) = [0.5]
  /\ postBaseline 0.5 init = 0.48
  /\ ~ In (postBaseline 0.5 init)
         (volumeHistory (snd (processVolumeAdaptively 0.5 init))).
Proof.
  assert (Hp : postBaseline 0.5 init = 0.48).
  { unfold postBaseline. simpl. rminmax. }
  split; [reflexivity|]. split; [exact Hp|].
  rewrite Hp. simpl. intros [H|[]]. lra.
Qed.

(** *** Every volume the pipeline returns *)

Lemma processedVolume_unit_range mode rawVolume (s : t) :
  0 <= rawVolume -> gain_in_range s ->
  0 <= fst (processedVolume mode rawVolume s) <= 1.
Proof.
  intros Hraw Hg. unfold processedVolume.
  destruct (AudioMode_eqb mode assistant).
  - simpl. rminmax.
  - rewrite processVolumeAdaptively_fst. apply adjusted_volume_range.
    unfold gain_in_range in Hg. lra.
Qed.

Lemma getVolume_unit_range mode dataArray now rnd (s : t) :
  call_ok (CGetVolume mode dataArray now rnd) -> gain_in_range s ->
  0 <= fst (getVolume mode dataArray now rnd s) <= 1.
Proof.
  intros [Hrnd Hframe] Hg. unfold getVolume.
  destruct (AudioMode_eqb mode test) eqn:Htest.
  - simpl. pose proof (Rabs_pos (sin (now * 0.005))).
    assert (Rabs (sin (now * 0.005)) <= 1)
      by (apply Rabs_le; pose proof (SIN_bound (now * 0.005)); lra).
    lra.
  - assert (Hne : dataArray <> [])
      by (destruct Hframe as [->|]; [discriminate | assumption]).
    pose proof (rawVolumeOf_range dataArray Hne) as Hraw.
    cbv zeta. destruct (negb _); [simpl; lra|].
    destruct (isCalibrating s);
      [|apply processedVolume_unit_range; [lra | exact Hg]].
    pose proof (processCalibration_gain (rawVolumeOf dataArray) now s Hg) as Hc.
    destruct (processCalibration _ _ _) as [complete s1]; simpl in Hc.
    destruct complete; simpl; [|lra].
    apply processedVolume_unit_range; [lra | exact Hc].
Qed.

(** Whatever the calls made on a new pipeline, every volume [getVolume]
    returns is a number of [0, 1]. *)
Lemma outputs_unit_range (calls : list call) (s : t) :
  Forall call_ok calls -> gain_in_range s ->
  Forall (fun v => 0 <= v <= 1) (outputs calls s).
Proof.
  intros Hok. revert s. induction Hok as [|c calls Hc _ IH]; intros s Hg.
  - constructor.
  - pose proof (IH (step s c) (step_gain s c Hg)) as Hrest.
    destruct c; simpl; try exact Hrest.
    constructor; [now apply getVolume_unit_range | exact Hrest].
Qed.

End AudioPipelineFacts.

(** ** The force system *)

Section ForceSystemFacts.

Import ForceSystem.

Lemma PI_gt_2 : 2 < PI.
Proof. pose proof PI2_1. lra. Qed.

Lemma alive_true (force : InternalForce) : alive force = true <-> 0 < life force.
Proof.
  unfold alive. destruct (Rlt_dec 0 (life force)); split; trivial;
    try lra; try discriminate.
Qed.

(** *** Invariants of reachable systems *)

Lemma newForce_wf (v thr : R) (d : Draws) :
  thr < v -> draws_ok d -> force_wf (newForce v thr d).
Proof.
  intros Hv (_ & _ & Hd & Hs). unfold unit_draw in *.
  unfold force_wf, newForce; simpl. repeat split; try lra.
Qed.

Lemma spawn_wf (v thr : R) (d : Draws) (fs : list InternalForce) :
  draws_ok d -> Forall force_wf fs -> Forall force_wf (spawn v thr d fs).
Proof.
  intros Hd Hall. unfold spawn.
  destruct (Rlt_dec thr v); [|exact Hall].
  cbv zeta. destruct (Rlt_dec _ _); [|exact Hall].
  apply Forall_app. split; [exact Hall|].
  constructor; [now apply newForce_wf | constructor].
Qed.

Lemma spawn_alive (v thr : R) (d : Draws) (fs : list InternalForce) :
  Forall (fun f => 0 < life f) fs ->
  Forall (fun f => 0 < life f) (spawn v thr d fs).
Proof.
  intros Hall. unfold spawn.
  destruct (Rlt_dec thr v); [|exact Hall].
  cbv zeta. destruct (Rlt_dec _ _); [|exact Hall].
  apply Forall_app. split; [exact Hall|].
  constructor; [simpl; lra | constructor].
Qed.

(** The life a force loses in one decay step. *)
Lemma decayForce_loss (v thr fade : R) (force : InternalForce) :
  0 <= fade <= 1 -> force_wf force ->
  0 < life force - life (decayForce v thr fade force) < 0.09.
Proof.
  intros Hf (_ & _ & Hd & _). unfold decayForce. simpl.
  destruct (Rlt_dec v thr); nra.
Qed.

Lemma decayForce_wf (v thr fade : R) (force : InternalForce) :
  0 <= fade <= 1 -> force_wf force -> force_wf (decayForce v thr fade force).
Proof.
  intros Hf Hwf. pose proof (decayForce_loss v thr fade force Hf Hwf) as Hloss.
  destruct Hwf as (Hs & Hl & Hd & Hsp & Hdist & Hm).
  unfold force_wf. repeat split; try assumption; try lra;
    simpl; rminmax.
Qed.

Lemma filter_Forall {A} (p : A -> bool) (P : A -> Prop) (l : list A) :
  Forall P l -> Forall P (filter p l).
Proof.
  intros H. apply Forall_forall. intros x Hx.
  apply filter_In in Hx. rewrite Forall_forall in H. now apply H.
Qed.

Lemma update_wf (v thr : R) (d : Draws) (s : t) :
  draws_ok d -> system_wf s -> system_wf (update v thr d s).
Proof.
  intros Hd [Hf Hall]. split; [exact Hf|]. simpl.
  apply Forall_map.
  eapply Forall_impl; [intros f Hwf; apply (decayForce_wf v thr _ f Hf Hwf)|].
  now apply spawn_wf, filter_Forall.
Qed.

Lemma reachable_wf (s : t) : reachable s -> system_wf s.
Proof.
  induction 1 as [sens | v thr d s Hd _ IH | fade s Hf _ IH | s _ IH].
  - split; simpl; [lra | constructor].
  - now apply update_wf.
  - destruct IH as [_ Hall]. split; assumption.
  - destruct IH as [Hf _]. split; [exact Hf | constructor].
Qed.

(** *** Life of the retained forces *)

Lemma spawn_keeps (v thr : R) (d : Draws) (fs : list InternalForce)
    (f : InternalForce) :
  In f fs -> In f (spawn v thr d fs).
Proof.
  intros Hin. unfold spawn. destruct (Rlt_dec thr v); [|exact Hin].
  cbv zeta. destruct (Rlt_dec _ _); [|exact Hin].
  apply in_or_app. now left.
Qed.

Lemma spawn_origin (v thr : R) (d : Draws) (fs : list InternalForce)
    (f : InternalForce) :
  In f (spawn v thr d fs) -> In f fs \/ f = newForce v thr d.
Proof.
  unfold spawn. destruct (Rlt_dec thr v); [|now left].
  cbv zeta. destruct (Rlt_dec _ _); [|now left].
  intros Hin. apply in_app_or in Hin. destruct Hin as [Hin|[<-|[]]].
  - now left.
  - now right.
Qed.

(** C8 (as the code behaves): after an [update] call on a reachable system
    every force of the collection has a life in (-0.09, 1]: it was positive
    before the decay step of this call and one step takes less than 0.09.
    Forces whose life has reached 0 or less stay in the collection until the
    filter at the start of the next [update]: every force that was alive
    when the call began is in the collection afterwards, decayed, whatever
    its life has become, and every force in the collection afterwards is the
    decayed form of a force that was alive when the call began or of the one
    spawned by the call. *)
Theorem update_life_bounds (v thr : R) (d : Draws) (s : t) :
  reachable s -> draws_ok d ->
  Forall (fun f => -0.09 < life f <= 1) (forces (update v thr d s))
  /\ (forall f, In f (forces s) -> 0 < life f ->
        In (decayForce v thr (fadeMultiplier s) f) (forces (update v thr d s)))
  /\ (forall g, In g (forces (update v thr d s)) ->
        exists f,
          g = decayForce v thr (fadeMultiplier s) f
          /\ 0 < life f
          /\ (In f (forces s) \/ f = newForce v thr d)).
Proof.
  intros Hr Hd. destruct (reachable_wf s Hr) as [Hf Hall]. split; [|split].
  - simpl. apply Forall_map.
    assert (Hcreated :
      Forall (fun f => force_wf f /\ 0 < life f)
        (spawn v thr d (filter alive (forces s)))).
    { apply Forall_and.
      - now apply spawn_wf, filter_Forall.
      - apply spawn_alive. apply Forall_forall. intros f Hin.
        apply filter_In in Hin. now apply alive_true. }
    eapply Forall_impl; [|exact Hcreated].
    intros f [Hwf Hlife].
    pose proof (decayForce_loss v thr (fadeMultiplier s) f Hf Hwf).
    destruct Hwf as (_ & Hl & _). lra.
  - intros f Hin Hlife. unfold update. cbn [forces].
    apply in_map, spawn_keeps, filter_In. split; [exact Hin|].
    now apply alive_true.
  - intros g Hin. unfold update in Hin. cbn [forces] in Hin.
    apply in_map_iff in Hin. destruct Hin as (f & Hg & Hin).
    exists f. split; [now symmetry|].
    apply spawn_origin in Hin. destruct Hin as [Hin | ->].
    + apply filter_In in Hin. destruct Hin as [Hin Halive].
      split; [now apply alive_true | now left].
    + split; [simpl; lra | now right].
Qed.

Lemma midDraws_ok : draws_ok Scenario.midDraws.
Proof. unfold draws_ok, unit_draw; simpl. lra. Qed.

Lemma update_life_bounds_witness :
  (reachable (create 0.05) /\ draws_ok Scenario.midDraws)
  /\ Forall (fun f => -0.09 < life f <= 1) (forces Scenario.spawned).
Proof.
  split; [split; [apply reach_create | exact midDraws_ok]|].
  exact (proj1 (update_life_bounds 0.58 0.08 Scenario.midDraws (create 0.05)
                  (reach_create 0.05) midDraws_ok)).
Defined.

(** The force of [Scenario.spawned]. *)
Lemma spawned_forces :
  exists force,
    forces Scenario.spawned = [force]
    /\ life force = 0.986 /\ decay force = 0.014
    /\ fadeMultiplier Scenario.spawned = 1.
Proof.
  unfold Scenario.spawned, update, create, spawn.
  cbn [forces filter fadeMultiplier].
  destruct (Rlt_dec 0.08 0.58); [|lra].
  cbv zeta. cbn [Scenario.midDraws r_spawn].
  destruct (Rlt_dec 0 ((0.58 - 0.08) * 0.5)); [|lra].
  cbn [app map]. eexists. split; [reflexivity|].
  unfold decayForce, newForce. cbn [life decay r_decay Scenario.midDraws].
  destruct (Rlt_dec 0.58 0.08); [lra|]. repeat split; lra.
Qed.

(** Silent frames on a system with one force and full fade multiplier: each
    takes 2.5 times the force's decay rate off its life, as long as the life
    was positive when the frame began. *)
Lemma quiet_updates (n : nat) (v thr : R) (d : Draws) (s : t)
    (force : InternalForce) :
  v < thr ->
  fadeMultiplier s = 1 ->
  forces s = [force] ->
  0 <= decay force ->
  INR n * (decay force * 2.5) < life force + decay force * 2.5 ->
  exists force',
    forces (updates n v thr d s) = [force']
    /\ life force' = life force - INR n * (decay force * 2.5)
    /\ decay force' = decay force
    /\ fadeMultiplier (updates n v thr d s) = 1.
Proof.
  intros Hv Hfade Hforces Hdecay. induction n as [|n IH]; intros Hlife.
  - exists force. simpl. repeat split; trivial. lra.
  - rewrite S_INR in Hlife.
    destruct IH as (f' & Hf' & Hl' & Hd' & Hfade'); [nra|].
    cbn [updates]. unfold update. rewrite Hf', Hfade'. cbn [filter].
    assert (Halive : alive f' = true) by (apply alive_true; nra).
    rewrite Halive. unfold spawn.
    destruct (Rlt_dec thr v); [lra|]. cbn [map forces fadeMultiplier].
    eexists. split; [reflexivity|].
    unfold decayForce. cbn [life decay].
    destruct (Rlt_dec v thr); [|lra].
    rewrite S_INR, Hl', Hd'. repeat split; lra.
Qed.

(** C8 (as stated, refuted): one loud frame spawns a force, and after 29
    silent frames that force is still in the collection with the life
    -0.029. *)
Lemma expired_force_retained :
  reachable Scenario.expiredForce
  /\ (exists force,
        forces Scenario.expiredForce = [force] /\ life force = -0.029)
  /\ ~ Forall (fun f => 0 <= life f <= 1) (forces Scenario.expiredForce).
Proof.
  assert (Hreach : reachable Scenario.expiredForce).
  { unfold Scenario.expiredForce. generalize 29%nat. intros n.
    induction n as [|n IH]; simpl.
    - apply reach_update; [exact midDraws_ok | apply reach_create].
    - apply reach_update; [exact midDraws_ok | exact IH]. }
  destruct spawned_forces as (f0 & Hf0 & Hl0 & Hd0 & Hfade0).
  assert (H29 : INR 29 = 29) by (rewrite INR_IZR_INZ; reflexivity).
  destruct (quiet_updates 29 0 0.08 Scenario.midDraws Scenario.spawned f0)
    as (f & Hf & Hl & _); trivial; try lra.
  { rewrite H29, Hl0, Hd0. lra. }
  rewrite H29, Hl0, Hd0 in Hl.
  fold Scenario.expiredForce in Hf.
  split; [exact Hreach|]. split.
  - exists f. split; [exact Hf | lra].
  - rewrite Hf. intros Hall. inversion Hall as [|? ? Hbad _]; subst. lra.
Qed.

(** *** Influence *)

Lemma influence_from (queried : R) (fs : list InternalForce) (acc : R) :
  fold_left (fun total force => total + influenceOf queried force) fs acc
  = acc + fold_left (fun total force => total + influenceOf queried force) fs 0.
Proof.
  revert acc. induction fs as [|f fs IH]; intros acc; simpl.
  - lra.
  - rewrite IH, (IH (0 + influenceOf queried f)). lra.
Qed.

Lemma getInfluenceAt_cons (queried : R) (f : InternalForce)
    (fs : list InternalForce) (sens fade : R) :
  getInfluenceAt queried (mk (f :: fs) sens fade)
  = influenceOf queried f + getInfluenceAt queried (mk fs sens fade).
Proof.
  unfold getInfluenceAt. simpl. rewrite influence_from. lra.
Qed.

(** With no force in the collection the influence is 0 at every angle. *)
Lemma getInfluenceAt_no_forces (queried : R) (s : t) :
  forces s = [] -> getInfluenceAt queried s = 0.
Proof. intros H. unfold getInfluenceAt. now rewrite H. Qed.

(** [angleDiff] is the distance on the circle as long as the force's angle
    is a number of [0, 2*pi]: the angles 0 and 2*pi are then at the same
    distance of it. *)
Lemma angleDiff_wraparound (force : InternalForce) :
  0 <= angle force <= 2 * PI ->
  angleDiff 0 force = angleDiff (2 * PI) force.
Proof.
  intros Ha. unfold angleDiff. cbv zeta.
  rewrite (Rabs_left1 (0 - angle force)) by lra.
  rewrite (Rabs_pos_eq (2 * PI - angle force)) by lra.
  rcases; lra.
Qed.

Lemma getInfluenceAt_wraparound_in_range (s : t) :
  Forall (fun f => 0 <= angle f <= 2 * PI) (forces s) ->
  getInfluenceAt 0 s = getInfluenceAt (2 * PI) s.
Proof.
  destruct s as [fs sens fade]. simpl. induction 1 as [|f fs Hf _ IH].
  - reflexivity.
  - rewrite !getInfluenceAt_cons, IH. f_equal.
    unfold influenceOf. cbv zeta. now rewrite (angleDiff_wraparound f Hf).
Qed.

Lemma wrapDraws_ok : draws_ok Scenario.wrapDraws.
Proof.
  pose proof PI_gt_2 as Hpi.
  assert (0 < 0.001 / PI < 1).
  { split; [apply Rdiv_lt_0_compat; lra|].
    apply (Rmult_lt_reg_r PI); [lra|].
    unfold Rdiv. rewrite Rmult_assoc, Rinv_l by lra. lra. }
  unfold draws_ok, unit_draw; simpl. lra.
Qed.

(** The force of [Scenario.wrappedForce]: spawned at 2*pi - 0.002, it has
    rotated to 2*pi + 0.003. *)
Lemma wrappedForce_forces :
  forces Scenario.wrappedForce
  = [ {| angle := 2 * PI + 0.003; strength := 35; life := 0.992;
         decay := 0.008; speed := 0.3; distance := 0.3;
         maxDistance := 50 |} ].
Proof.
  pose proof PI_gt_2 as Hpi.
  unfold Scenario.wrappedForce, update, create, spawn.
  cbn [forces filter fadeMultiplier].
  destruct (Rlt_dec 0.08 0.58); [|lra].
  cbv zeta. cbn [Scenario.wrapDraws r_spawn].
  destruct (Rlt_dec 0 ((0.58 - 0.08) * 0.5)); [|lra].
  cbn [app map]. unfold decayForce, newForce.
  cbn [angle strength life decay speed distance maxDistance
       r_angle r_decay r_speed].
  destruct (Rlt_dec 0.58 0.08); [lra|].
  assert (Hinv : 0.001 / PI * PI = 0.001).
  { unfold Rdiv. rewrite Rmult_assoc, Rinv_l by lra. lra. }
  cbn [Scenario.wrapDraws r_angle r_decay r_speed].
  f_equal. f_equal; try lra. rminmax.
Qed.

(** C7 (the code at the failing input): the system [Scenario.wrappedForce] is
    reachable, and its influence at the angle 0 is larger than at the angle
    2*pi: at 0 the computed angular distance is -0.003 and the falloff exceeds
    1, at 2*pi the distance is 0.003. *)
Theorem getInfluenceAt_wraparound_mismatch :
  reachable Scenario.wrappedForce
  /\ getInfluenceAt (2 * PI) Scenario.wrappedForce
     < getInfluenceAt 0 Scenario.wrappedForce.
Proof.
  pose proof PI_gt_2 as Hpi.
  split.
  { apply reach_update; [exact wrapDraws_ok | apply reach_create]. }
  unfold getInfluenceAt. rewrite wrappedForce_forces. cbn [fold_left].
  unfold influenceOf, angleDiff.
  cbn [angle strength life distance maxDistance].
  rewrite (Rabs_left (0 - (2 * PI + 0.003))) by lra.
  replace (2 * PI - (2 * PI + 0.003)) with (- 0.003) by lra.
  rewrite (Rabs_left (- 0.003)) by lra.
  destruct (Rlt_dec PI (- (0 - (2 * PI + 0.003)))); [|lra].
  destruct (Rlt_dec PI (- - 0.003)); [lra|].
  assert (Hq : 0 < 0.003 / (PI * 0.4) < 1).
  { split; [apply Rdiv_lt_0_compat; lra|].
    apply (Rmult_lt_reg_r (PI * 0.4)); [lra|].
    unfold Rdiv. rewrite Rmult_assoc, Rinv_l by lra. lra. }
  assert (Hfar : (PI * 2 - - (0 - (2 * PI + 0.003))) / (PI * 0.4)
                 = - (0.003 / (PI * 0.4))).
  { replace (PI * 2 - - (0 - (2 * PI + 0.003))) with (- 0.003) by lra.
    unfold Rdiv. set (i := / (PI * 0.4)). lra. }
  assert (Hnear : - - 0.003 / (PI * 0.4) = 0.003 / (PI * 0.4)).
  { unfold Rdiv. set (i := / (PI * 0.4)). lra. }
  rewrite Hfar, Hnear.
  assert (Hsin : 0 < sin (0.3 / 50 * PI)) by (apply sin_gt_0; lra).
  set (q := 0.003 / (PI * 0.4)) in *. set (w := sin (0.3 / 50 * PI)) in *.
  assert (H0 : Rmax 0 (1 - - q) = 1 + q) by rminmax.
  assert (H1 : Rmax 0 (1 - q) = 1 - q) by rminmax.
  rewrite H0, H1. nra.
Qed.

Lemma influenceOf_nonneg (queried : R) (force : InternalForce) :
  force_wf force -> 0 <= life force -> 0 <= influenceOf queried force.
Proof.
  intros (Hs & _ & _ & _ & Hdist & Hm) Hlife. unfold influenceOf. cbv zeta.
  pose proof PI_gt_2 as Hpi.
  assert (Hratio : 0 <= distance force / maxDistance force <= 1).
  { split.
    - apply Rmult_le_pos; [lra|]. left. now apply Rinv_0_lt_compat.
    - apply (Rmult_le_reg_r (maxDistance force)); [exact Hm|].
      unfold Rdiv. rewrite Rmult_assoc, Rinv_l by lra. lra. }
  apply Rmult_le_pos.
  - apply Rmult_le_pos; [apply Rmult_le_pos; lra | apply Rmax_l].
  - apply sin_ge_0; nra.
Qed.

(** C10: on a reachable system whose forces all have life >= 0, the influence
    is nonnegative at every angle. *)
Theorem getInfluenceAt_nonneg (queried : R) (s : t) :
  reachable s ->
  Forall (fun f => 0 <= life f) (forces s) ->
  0 <= getInfluenceAt queried s.
Proof.
  intros Hr Hlife. destruct (reachable_wf s Hr) as [_ Hwf].
  clear Hr. destruct s as [fs sens fade]. simpl in *.
  induction fs as [|f fs IH].
  - unfold getInfluenceAt. simpl. lra.
  - inversion Hwf as [|? ? Hf Hfs]; subst.
    inversion Hlife as [|? ? Hl Hls]; subst.
    rewrite getInfluenceAt_cons.
    pose proof (influenceOf_nonneg queried f Hf Hl).
    pose proof (IH Hls Hfs). lra.
Qed.

Lemma getInfluenceAt_nonneg_witness :
  (reachable Scenario.wrappedForce
   /\ Forall (fun f => 0 <= life f) (forces Scenario.wrappedForce))
  /\ 0 <= getInfluenceAt 0 Scenario.wrappedForce.
Proof.
  assert (Hr : reachable Scenario.wrappedForce)
    by (apply reach_update; [exact wrapDraws_ok | apply reach_create]).
  assert (Hl : Forall (fun f => 0 <= life f) (forces Scenario.wrappedForce)).
  { rewrite wrappedForce_forces. constructor; [simpl; lra | constructor]. }
  split; [split; assumption|].
  exact (getInfluenceAt_nonneg 0 Scenario.wrappedForce Hr Hl).
Defined.

End ForceSystemFacts.

(** ** The fade multiplier of [VoiceOrb.draw] *)

Section VoiceOrbFacts.

Import VoiceOrb.

Lemma nextFadeMultiplier_range (current previous fade : R) :
  0 <= nextFadeMultiplier current previous fade <= 1.
Proof. unfold nextFadeMultiplier. cbv zeta. rminmax. Qed.

Lemma nextFadeMultiplier_falling (current previous fade : R) :
  0 <= fade <= 1 -> current < previous ->
  nextFadeMultiplier current previous fade = fade * 0.96.
Proof.
  intros Hf Hlt. unfold nextFadeMultiplier.
  destruct (Rlt_dec current previous); [|contradiction]. rminmax.
Qed.

Lemma nextFadeMultiplier_rising (current previous fade : R) :
  0 <= fade <= 1 -> previous <= current ->
  nextFadeMultiplier current previous fade = fade + (1 - fade) * 0.15.
Proof.
  intros Hf Hle. unfold nextFadeMultiplier.
  destruct (Rlt_dec current previous); [lra|]. rminmax.
Qed.

(** The fields of the orb after one frame. *)
Lemma draw_fadeMultiplier (f : Frame) (s : t) :
  fadeMultiplier (snd (draw f s))
  = nextFadeMultiplier (smoothedVolume (snd (draw f s)))
      (previousVolumeLevel s) (fadeMultiplier s).
Proof. unfold draw. destruct (AudioPipeline.getVolume _ _ _ _ _). reflexivity. Qed.

Lemma draw_previousVolumeLevel (f : Frame) (s : t) :
  previousVolumeLevel (snd (draw f s)) = smoothedVolume (snd (draw f s)).
Proof. unfold draw. destruct (AudioPipeline.getVolume _ _ _ _ _). reflexivity. Qed.

Lemma draw_fade_inv (f : Frame) (s : t) : fade_inv (snd (draw f s)).
Proof.
  split; [|apply draw_previousVolumeLevel].
  rewrite draw_fadeMultiplier. apply nextFadeMultiplier_range.
Qed.

Lemma step_fade_inv (s : t) (c : call) : fade_inv s -> fade_inv (step s c).
Proof.
  intros Hinv. destruct c; simpl; try exact Hinv.
  - apply draw_fade_inv.
  - split; simpl; lra.
Qed.

Lemma run_fade_inv (calls : list call) (s : t) :
  fade_inv s -> fade_inv (run calls s).
Proof.
  revert s. induction calls as [|c calls IH]; intros s Hinv; simpl.
  - exact Hinv.
  - apply IH, step_fade_inv, Hinv.
Qed.

Lemma create_fade_inv (opts : Options) : fade_inv (create opts).
Proof. split; simpl; lra. Qed.

(** One frame, from a state between two calls. *)
Lemma draw_fade_step (f : Frame) (s : t) :
  fade_inv s ->
  (smoothedVolume (snd (draw f s)) < smoothedVolume s ->
   fadeMultiplier (snd (draw f s)) = 0.96 * fadeMultiplier s)
  /\ (smoothedVolume s <= smoothedVolume (snd (draw f s)) ->
      1 - fadeMultiplier (snd (draw f s)) = 0.85 * (1 - fadeMultiplier s)).
Proof.
  intros [Hf Hprev]. rewrite draw_fadeMultiplier, Hprev. split; intros Hcmp.
  - rewrite nextFadeMultiplier_falling by assumption. lra.
  - rewrite nextFadeMultiplier_rising by assumption. lra.
Qed.

Lemma drawAll_falling (frames : list Frame) (s : t) :
  fade_inv s -> falling frames s ->
  fadeMultiplier (drawAll frames s) = 0.96 ^ length frames * fadeMultiplier s.
Proof.
  revert s. induction frames as [|f frames IH]; intros s Hinv Hfall.
  - simpl. lra.
  - destruct Hfall as [Hlt Hrest].
    change (drawAll (f :: frames) s) with (drawAll frames (snd (draw f s))).
    rewrite (IH _ (draw_fade_inv f s) Hrest).
    destruct (draw_fade_step f s Hinv) as [Hstep _]. rewrite (Hstep Hlt).
    cbn [length pow]. lra.
Qed.

Lemma drawAll_rising (frames : list Frame) (s : t) :
  fade_inv s -> rising frames s ->
  1 - fadeMultiplier (drawAll frames s)
  = 0.85 ^ length frames * (1 - fadeMultiplier s).
Proof.
  revert s. induction frames as [|f frames IH]; intros s Hinv Hrise.
  - simpl. lra.
  - destruct Hrise as [Hle Hrest].
    change (drawAll (f :: frames) s) with (drawAll frames (snd (draw f s))).
    rewrite (IH _ (draw_fade_inv f s) Hrest).
    destruct (draw_fade_step f s Hinv) as [_ Hstep]. rewrite (Hstep Hle).
    cbn [length pow]. lra.
Qed.

Lemma pow_unit_range (q : R) (n : nat) : 0 <= q <= 1 -> 0 <= q ^ n <= 1.
Proof.
  intros Hq. induction n as [|n IH]; simpl; [lra | nra].
Qed.

(** C9: from any state the orb reaches, along a run of frames on which the
    smoothed volume strictly decreases from frame to frame the fade
    multiplier does not increase (each frame multiplies it by 0.96); along a
    run on which the smoothed volume does not decrease the fade multiplier
    does not decrease, stays at most 1, and each frame takes 15 % off its
    distance to 1. *)
Theorem fadeMultiplier_follows_volume (opts : Options) (calls : list call)
    (frames : list Frame) :
  let s := run calls (create opts) in
  (falling frames s ->
   fadeMultiplier (drawAll frames s) <= fadeMultiplier s
   /\ fadeMultiplier (drawAll frames s)
      = 0.96 ^ length frames * fadeMultiplier s)
  /\ (rising frames s ->
      fadeMultiplier s <= fadeMultiplier (drawAll frames s) <= 1
      /\ 1 - fadeMultiplier (drawAll frames s)
         = 0.85 ^ length frames * (1 - fadeMultiplier s)).
Proof.
  cbv zeta.
  assert (Hinv : fade_inv (run calls (create opts)))
    by apply run_fade_inv, create_fade_inv.
  set (s := run calls (create opts)) in *. clearbody s.
  pose proof Hinv as [Hf _]. split.
  - intros Hfall. pose proof (drawAll_falling frames s Hinv Hfall) as Heq.
    split; [|exact Heq]. rewrite Heq.
    pose proof (pow_unit_range 0.96 (length frames)). nra.
  - intros Hrise. pose proof (drawAll_rising frames s Hinv Hrise) as Heq.
    split; [|exact Heq].
    pose proof (pow_unit_range 0.85 (length frames)). nra.
Qed.

(** One frame in test mode. *)
Lemma draw_test (f : Frame) (s : t) :
  currentMode s = test ->
  let rawVolume := Rabs (sin (nowVolume f * 0.005)) * 0.3 + rnd f * 0.1 in
  let sens := AudioPipeline.dynamicSensitivityThreshold (audioPipeline s) in
  let last := if Rlt_dec sens rawVolume then nowAudio f else lastAudioTime s in
  let fadeProgress := Rmin ((nowFade f - last) / fadeOutMs (options s)) 1 in
  smoothedVolume (snd (draw f s))
  = smoothedVolume s
    + (rawVolume * (1 - Utils.easeOutCubic fadeProgress) - smoothedVolume s)
      * volumeLerpFactor (options s)
  /\ currentMode (snd (draw f s)) = test
  /\ options (snd (draw f s)) = options s
  /\ audioPipeline (snd (draw f s)) = audioPipeline s
  /\ lastAudioTime (snd (draw f s)) = last.
Proof.
  intros Hmode. unfold draw, AudioPipeline.getVolume. rewrite Hmode.
  cbn [AudioMode_eqb]. repeat split.
Qed.

Lemma test_signal_at_0 (r : R) : Rabs (sin (0 * 0.005)) * 0.3 + r * 0.1 = r * 0.1.
Proof. rewrite Rmult_0_l, sin_0, Rabs_R0. lra. Qed.

Lemma testOrb_state :
  smoothedVolume Scenario.testOrb = 0.006
  /\ currentMode Scenario.testOrb = test
  /\ options Scenario.testOrb = DEFAULT_OPTIONS
  /\ audioPipeline Scenario.testOrb = AudioPipeline.init
  /\ lastAudioTime Scenario.testOrb = 0.
Proof.
  unfold Scenario.testOrb, Scenario.testCalls, run. cbn [fold_left step].
  destruct (draw_test Scenario.testFrame (startTest (create DEFAULT_OPTIONS))
              eq_refl) as (Hs & Hm & Ho & Hp & Hl).
  cbn [Scenario.testFrame nowVolume rnd nowAudio nowFade] in Hs, Hl.
  rewrite test_signal_at_0 in Hs, Hl.
  cbn [startTest withMode create options audioPipeline smoothedVolume
       lastAudioTime DEFAULT_OPTIONS fadeOutMs volumeLerpFactor
       AudioPipeline.init AudioPipeline.dynamicSensitivityThreshold] in Hs, Hl.
  destruct (Rlt_dec 0.08 (0.5 * 0.1)); [lra|].
  assert (Hp0 : Rmin ((0 - 0) / 1200) 1 = 0) by rminmax.
  rewrite Hp0 in Hs. unfold Utils.easeOutCubic in Hs.
  repeat split; trivial. rewrite Hs. lra.
Qed.

Lemma testOrb_falling : falling [Scenario.silentFrame] Scenario.testOrb.
Proof.
  destruct testOrb_state as (Hs & Hm & _).
  destruct (draw_test Scenario.silentFrame Scenario.testOrb Hm) as (Hs' & _).
  cbn [Scenario.silentFrame nowVolume rnd] in Hs'.
  rewrite test_signal_at_0, Hs in Hs'.
  split; [|exact I].
  rewrite Hs', Hs.
  destruct testOrb_state as (_ & _ & Ho & _). rewrite Ho.
  cbn [DEFAULT_OPTIONS volumeLerpFactor]. lra.
Defined.

Lemma testOrb_rising : rising [Scenario.testFrame] Scenario.testOrb.
Proof.
  destruct testOrb_state as (Hs & Hm & Ho & Hp & Hl).
  destruct (draw_test Scenario.testFrame Scenario.testOrb Hm) as (Hs' & _).
  cbn [Scenario.testFrame nowVolume rnd nowAudio nowFade] in Hs'.
  rewrite test_signal_at_0, Hs, Ho, Hp, Hl in Hs'.
  cbn [DEFAULT_OPTIONS fadeOutMs volumeLerpFactor
       AudioPipeline.init AudioPipeline.dynamicSensitivityThreshold] in Hs'.
  destruct (Rlt_dec 0.08 (0.5 * 0.1)); [lra|].
  assert (Hp0 : Rmin ((0 - 0) / 1200) 1 = 0) by rminmax.
  rewrite Hp0 in Hs'. unfold Utils.easeOutCubic in Hs'.
  split; [|exact I]. rewrite Hs', Hs. lra.
Defined.

Lemma fadeMultiplier_follows_volume_witness :
  (falling [Scenario.silentFrame] Scenario.testOrb
   /\ rising [Scenario.testFrame] Scenario.testOrb)
  /\ fadeMultiplier (drawAll [Scenario.silentFrame] Scenario.testOrb)
     <= fadeMultiplier Scenario.testOrb
  /\ fadeMultiplier Scenario.testOrb
     <= fadeMultiplier (drawAll [Scenario.testFrame] Scenario.testOrb) <= 1.
Proof.
  split; [split; [exact testOrb_falling | exact testOrb_rising]|].
  split.
  - apply (fadeMultiplier_follows_volume DEFAULT_OPTIONS Scenario.testCalls
             [Scenario.silentFrame]).
    exact testOrb_falling.
  - apply (fadeMultiplier_follows_volume DEFAULT_OPTIONS Scenario.testCalls
             [Scenario.testFrame]).
    exact testOrb_rising.
Defined.

(** *** The force system inside the orb *)

(** The orb only drives its force system through calls that keep it
    reachable in the sense of [ForceSystem.reachable]: the fade multiplier
    it passes on is clamped to [0, 1]. *)
Lemma draw_forceSystem (f : Frame) (s : t) :
  ForceSystem.draws_ok (draws f) ->
  ForceSystem.reachable (forceSystem s) ->
  ForceSystem.reachable (forceSystem (snd (draw f s))).
Proof.
  intros Hd Hr. unfold draw. destruct (AudioPipeline.getVolume _ _ _ _ _).
  cbn [snd forceSystem].
  apply ForceSystem.reach_update; [exact Hd|].
  apply ForceSystem.reach_fade; [apply nextFadeMultiplier_range | exact Hr].
Qed.

Lemma run_forceSystem (calls : list call) (s : t) :
  frames_ok calls ->
  ForceSystem.reachable (forceSystem s) ->
  ForceSystem.reachable (forceSystem (run calls s)).
Proof.
  intros Hok. revert s. induction Hok as [|c calls Hc _ IH]; intros s Hr.
  - exact Hr.
  - simpl. apply IH. destruct c; simpl; try exact Hr.
    + now apply draw_forceSystem.
    + now apply ForceSystem.reach_clear.
Qed.

End VoiceOrbFacts.

(** * Further properties *)

(** ** utils.ts *)

Section UtilsFacts.

Import Utils.

Lemma cube_monotone (a b : R) : a <= b -> a ^ 3 <= b ^ 3.
Proof.
  intros Hab.
  assert (Hq : 0 <= a * a + a * b + b * b) by nra.
  assert (Hd : b ^ 3 - a ^ 3 = (b - a) * (a * a + a * b + b * b)) by ring.
  assert (0 <= (b - a) * (a * a + a * b + b * b))
    by (apply Rmult_le_pos; lra).
  lra.
Qed.

(** X1: with [min <= max], [clamp] returns a number of [min, max], returns
    its argument when that already lies there, and clamping twice is
    clamping once. *)
Theorem clamp_into_range (value lo hi : R) :
  lo <= hi ->
  lo <= clamp value lo hi <= hi
  /\ (lo <= value <= hi -> clamp value lo hi = value)
  /\ clamp (clamp value lo hi) lo hi = clamp value lo hi.
Proof.
  intros Hle. repeat split; try intros Hin; rminmax.
Qed.

Lemma clamp_into_range_witness :
  (0 <= 1) /\ 0 <= clamp 7 0 1 <= 1.
Proof.
  assert (H : 0 <= 1) by lra.
  split; [exact H|]. exact (proj1 (clamp_into_range 7 0 1 H)).
Defined.

(** X2: on [0, 1] [easeOutCubic] is nondecreasing and takes its values in
    [0, 1]. *)
Theorem easeOutCubic_monotone_unit (a b : R) :
  0 <= a -> a <= b -> b <= 1 ->
  0 <= easeOutCubic a /\ easeOutCubic a <= easeOutCubic b
  /\ easeOutCubic b <= 1.
Proof.
  intros Ha Hab Hb. unfold easeOutCubic.
  pose proof (cube_monotone (1 - b) (1 - a)).
  pose proof (cube_monotone (1 - a) 1).
  pose proof (cube_monotone 0 (1 - b)).
  assert (Hone : (1 : R) ^ 3 = 1) by ring.
  assert (Hzero : (0 : R) ^ 3 = 0) by ring.
  repeat split; lra.
Qed.

Lemma easeOutCubic_monotone_unit_witness :
  (0 <= 0.25 /\ 0.25 <= 0.5 /\ 0.5 <= 1)
  /\ easeOutCubic 0.25 <= easeOutCubic 0.5.
Proof.
  assert (H : 0 <= 0.25 /\ 0.25 <= 0.5 /\ 0.5 <= 1) by lra.
  split; [exact H|]. destruct H as (Ha & Hab & Hb).
  exact (proj1 (proj2 (easeOutCubic_monotone_unit 0.25 0.5 Ha Hab Hb))).
Defined.

Lemma easeInOutCubic_low (t : R) : t < 0.5 -> easeInOutCubic t = 4 * t ^ 3.
Proof.
  intros Ht. unfold easeInOutCubic. destruct (Rlt_dec t 0.5); [ring | lra].
Qed.

Lemma easeInOutCubic_high (t : R) :
  0.5 <= t -> easeInOutCubic t = 1 - 4 * (1 - t) ^ 3.
Proof.
  intros Ht. unfold easeInOutCubic. destruct (Rlt_dec t 0.5); [lra|].
  assert (Hc : (-2 * t + 2) ^ 3 = 8 * (1 - t) ^ 3) by ring. rewrite Hc. lra.
Qed.

(** X3: on [0, 1] [easeInOutCubic] is nondecreasing with values in [0, 1],
    the two branches meeting at 0.5, and it is symmetric about the point
    (0.5, 0.5). *)
Theorem easeInOutCubic_monotone_symmetric (a b : R) :
  0 <= a -> a <= b -> b <= 1 ->
  0 <= easeInOutCubic a
  /\ easeInOutCubic a <= easeInOutCubic b
  /\ easeInOutCubic b <= 1
  /\ easeInOutCubic (1 - a) = 1 - easeInOutCubic a.
Proof.
  intros Ha Hab Hb.
  assert (Hone : (1 : R) ^ 3 = 1) by ring.
  assert (Hzero : (0 : R) ^ 3 = 0) by ring.
  assert (Hhalf : (0.5 : R) ^ 3 = 0.125) by lra.
  assert (Hsym : easeInOutCubic (1 - a) = 1 - easeInOutCubic a).
  { destruct (Rlt_dec a 0.5) as [Hlo|Hhi].
    - rewrite (easeInOutCubic_low a Hlo), easeInOutCubic_high by lra.
      replace (1 - (1 - a)) with a by ring. ring.
    - destruct (Req_dec a 0.5) as [->|Hne].
      + replace (1 - 0.5) with 0.5 by lra.
        rewrite easeInOutCubic_high by lra.
        replace (1 - 0.5) with 0.5 by lra. lra.
      + rewrite (easeInOutCubic_high a) by lra.
        rewrite easeInOutCubic_low by lra. ring. }
  split; [|split; [|split; [|exact Hsym]]].
  - destruct (Rlt_dec a 0.5).
    + rewrite easeInOutCubic_low by assumption.
      pose proof (cube_monotone 0 a Ha). lra.
    + rewrite easeInOutCubic_high by lra.
      pose proof (cube_monotone (1 - a) 0.5). lra.
  - destruct (Rlt_dec a 0.5); destruct (Rlt_dec b 0.5).
    + rewrite !easeInOutCubic_low by assumption.
      pose proof (cube_monotone a b Hab). lra.
    + rewrite easeInOutCubic_low, easeInOutCubic_high by lra.
      pose proof (cube_monotone a 0.5). pose proof (cube_monotone (1 - b) 0.5).
      lra.
    + lra.
    + rewrite !easeInOutCubic_high by lra.
      pose proof (cube_monotone (1 - b) (1 - a)). lra.
  - destruct (Rlt_dec b 0.5).
    + rewrite easeInOutCubic_low by assumption.
      pose proof (cube_monotone b 0.5). lra.
    + rewrite easeInOutCubic_high by lra.
      pose proof (cube_monotone 0 (1 - b)). lra.
Qed.

Lemma easeInOutCubic_monotone_symmetric_witness :
  (0 <= 0.25 /\ 0.25 <= 0.75 /\ 0.75 <= 1)
  /\ easeInOutCubic 0.25 <= easeInOutCubic 0.75.
Proof.
  assert (H : 0 <= 0.25 /\ 0.25 <= 0.75 /\ 0.75 <= 1) by lra.
  split; [exact H|]. destruct H as (Ha & Hab & Hb).
  exact (proj1 (proj2
           (easeInOutCubic_monotone_symmetric 0.25 0.75 Ha Hab Hb))).
Defined.

(** X4: for a factor of [0, 1], [lerp] returns a number between its two end
    values. *)
Theorem lerp_between (start stop factor : R) :
  0 <= factor <= 1 ->
  Rmin start stop <= lerp start stop factor <= Rmax start stop.
Proof.
  intros Hf. unfold lerp, Rmin, Rmax. rcases; nra.
Qed.

Lemma lerp_between_witness :
  (0 <= 0.12 <= 1) /\ Rmin 0 1 <= lerp 0 1 0.12 <= Rmax 0 1.
Proof.
  assert (H : 0 <= 0.12 <= 1) by lra.
  split; [exact H | exact (lerp_between 0 1 0.12 H)].
Defined.

End UtilsFacts.

(** ** audio-pipeline.ts *)

Section AudioPipelineMore.

Import AudioPipeline.

(** X5: whatever the calls made on a new pipeline, with random values in
    [0, 1) and analyser frames of at least one bin, every volume [getVolume]
    returns lies in [0, 1]. *)
Theorem getVolume_outputs_unit_range (calls : list call) :
  Forall call_ok calls ->
  Forall (fun v => 0 <= v <= 1) (outputs calls init).
Proof.
  intros Hok. apply outputs_unit_range; [exact Hok|].
  unfold gain_in_range. simpl. lra.
Qed.

Lemma micWarmup_ok : Forall call_ok Scenario.micWarmup.
Proof.
  assert (Hframe : forall now,
            call_ok (CGetVolume microphone Scenario.quietFrame now 0))
    by (intros now; split; [lra | right; discriminate]).
  unfold Scenario.micWarmup.
  apply Forall_cons; [exact I|].
  apply Forall_cons; [apply Hframe|].
  apply Forall_cons; [apply Hframe | apply Forall_nil].
Defined.

Lemma getVolume_outputs_unit_range_witness :
  Forall call_ok Scenario.micWarmup
  /\ Forall (fun v => 0 <= v <= 1) (outputs Scenario.micWarmup init).
Proof.
  split; [exact micWarmup_ok|].
  exact (getVolume_outputs_unit_range Scenario.micWarmup micWarmup_ok).
Defined.

(** X6: in test mode [getVolume] returns a number of [0, 0.4) and leaves the
    pipeline as it was, whether or not a calibration is in progress. *)
Theorem getVolume_test_signal dataArray now rnd (s : t) :
  0 <= rnd < 1 ->
  0 <= fst (getVolume test dataArray now rnd s) < 0.4
  /\ snd (getVolume test dataArray now rnd s) = s.
Proof.
  intros Hrnd. unfold getVolume. cbn [AudioMode_eqb fst snd].
  pose proof (Rabs_pos (sin (now * 0.005))).
  assert (Rabs (sin (now * 0.005)) <= 1)
    by (apply Rabs_le; pose proof (SIN_bound (now * 0.005)); lra).
  repeat split; lra.
Qed.

Lemma getVolume_test_signal_witness :
  (0 <= 0.5 < 1)
  /\ 0 <= fst (getVolume test [] 16 0.5 Scenario.warmedUp) < 0.4.
Proof.
  assert (H : 0 <= 0.5 < 1) by lra.
  split; [exact H|].
  exact (proj1 (getVolume_test_signal [] 16 0.5 Scenario.warmedUp H)).
Defined.

Lemma getVolume_assistant dataArray now rnd (s : t) :
  assistantAnalyser s = true -> isCalibrating s = false ->
  getVolume assistant dataArray now rnd s
  = (Rmin (rawVolumeOf dataArray * 2.0) 1.0, s).
Proof.
  intros Han Hcal. unfold getVolume, processedVolume.
  cbn [AudioMode_eqb]. now rewrite Han, Hcal.
Qed.

(** X7: after [initAssistant], frames read in assistant mode return the raw
    volume doubled and capped at 1, and leave the pipeline untouched: no
    baseline subtraction, no history, no gain adaptation. *)
Theorem assistant_frames_bypass_processing (s0 : t)
    (frames : list (list byte * R * R)) :
  run (assistantCalls frames) (initAssistant s0) = initAssistant s0
  /\ outputs (assistantCalls frames) (initAssistant s0)
     = map (fun '(dataArray, _, _) => Rmin (rawVolumeOf dataArray * 2.0) 1.0)
         frames.
Proof.
  induction frames as [|[[dataArray now] rnd] frames [IHrun IHout]].
  - split; reflexivity.
  - unfold assistantCalls in *. cbn [map run fold_left outputs step].
    rewrite (getVolume_assistant dataArray now rnd (initAssistant s0))
      by reflexivity.
    cbn [fst snd]. unfold run in IHrun. rewrite IHrun, IHout.
    split; reflexivity.
Qed.

(** *** Thresholds *)

Lemma completeCalibration_thresholds (samples : list R) (s : t) :
  thresholds_ordered (completeCalibration samples s).
Proof.
  unfold thresholds_ordered, completeCalibration. cbv zeta.
  cbn [baselineNoise dynamicSensitivityThreshold dynamicLoudThreshold
       dynamicVeryLoudThreshold].
  pose proof (Rmax_l 0.01
    (JsArray.get (JsArray.sort samples)
       (medianIndex (length (JsArray.sort samples))))).
  repeat split; lra.
Qed.

Lemma processCalibration_thresholds volume now (s : t) :
  thresholds_ordered s ->
  thresholds_ordered (snd (processCalibration volume now s)).
Proof.
  intros Ht. unfold processCalibration.
  destruct (negb _); [exact Ht|]. cbv zeta.
  destruct (Rle_dec _ _); [apply completeCalibration_thresholds | exact Ht].
Qed.

Lemma getVolume_thresholds mode dataArray now rnd (s : t) :
  thresholds_ordered s ->
  thresholds_ordered (snd (getVolume mode dataArray now rnd s)).
Proof.
  intros Ht. unfold getVolume, processedVolume.
  destruct (AudioMode_eqb mode test); [exact Ht|].
  cbv zeta. destruct (negb _); [exact Ht|].
  destruct (isCalibrating s).
  - pose proof (processCalibration_thresholds (rawVolumeOf dataArray) now s Ht)
      as Hc.
    destruct (processCalibration _ _ _) as [complete s1]. simpl in Hc.
    destruct complete; simpl; [|exact Hc].
    destruct (AudioMode_eqb mode assistant); exact Hc.
  - destruct (AudioMode_eqb mode assistant); exact Ht.
Qed.

Lemma default_thresholds_ordered (s : t) : thresholds_ordered (cleanup s).
Proof. unfold thresholds_ordered. simpl. lra. Qed.

Lemma step_thresholds (s : t) (c : call) :
  thresholds_ordered s -> thresholds_ordered (step s c).
Proof.
  intros Ht. destruct c; simpl;
    [ unfold thresholds_ordered; simpl; lra
    | apply default_thresholds_ordered
    | unfold thresholds_ordered; simpl; lra
    | now apply getVolume_thresholds
    | apply default_thresholds_ordered ].
Qed.

(** X8: after any sequence of calls the values reported by [getThresholds]
    are ordered: 0.01 <= baseline < sensitivity < loudThreshold <
    veryLoudThreshold. *)
Theorem thresholds_always_ordered (calls : list call) :
  let th := getThresholds (run calls init) in
  0.01 <= cd_baseline th
  /\ cd_baseline th < cd_sensitivity th
  /\ cd_sensitivity th < cd_loudThreshold th
  /\ cd_loudThreshold th < cd_veryLoudThreshold th.
Proof.
  cbv zeta. cbn [getThresholds cd_baseline cd_sensitivity cd_loudThreshold
                 cd_veryLoudThreshold].
  change (thresholds_ordered (run calls init)).
  assert (H : forall s, thresholds_ordered s -> thresholds_ordered (run calls s)).
  { induction calls as [|c calls IH]; intros s Hs; simpl; [exact Hs|].
    apply IH, step_thresholds, Hs. }
  apply H. unfold thresholds_ordered. simpl. lra.
Qed.

(** *** Calibration *)

Lemma sorted_sample_in (samples : list R) (i : nat) :
  (i < length samples)%nat ->
  In (JsArray.get (JsArray.sort samples) i) samples.
Proof.
  intros Hi. eapply Permutation_in; [symmetry; apply sort_perm|].
  apply nth_In. now rewrite sort_length.
Qed.

Lemma calibration_gain_floor (samples : list R) (s : t) :
  samples <> [] ->
  Forall (fun v => v <= 1) samples ->
  0.8 <= adaptiveGain (completeCalibration samples s) <= 4.0.
Proof.
  intros Hne Hall.
  assert (Hlen : (0 < length samples)%nat)
    by (destruct samples; [contradiction | simpl; lia]).
  unfold completeCalibration. cbv zeta. cbn [adaptiveGain].
  rewrite sort_length.
  set (median := JsArray.get (JsArray.sort samples) (medianIndex (length samples))).
  set (p90 := JsArray.get (JsArray.sort samples) (p90Index (length samples))).
  assert (Hp90 : p90 <= 1).
  { rewrite Forall_forall in Hall. apply Hall.
    apply sorted_sample_in, p90_index_in_range, Hlen. }
  pose proof (Rmax_l 0.01 median) as Hb.
  pose proof (clampGain_range
    (if Rlt_dec 0.05 (p90 - Rmax 0.01 median)
     then 0.8 / (p90 - Rmax 0.01 median) else 2.0)) as [_ Hhi].
  split; [|exact Hhi].
  destruct (Rlt_dec 0.05 (p90 - Rmax 0.01 median)) as [Hwide|_].
  - assert (Hnr : p90 - Rmax 0.01 median <= 0.99) by lra.
    set (noiseRange := p90 - Rmax 0.01 median) in *. clearbody noiseRange.
    assert (Hq : 0.8 <= 0.8 / noiseRange).
    { apply (Rmult_le_reg_r noiseRange); [lra|].
      unfold Rdiv. rewrite Rmult_assoc, Rinv_l by lra. nra. }
    unfold clampGain. rminmax.
  - unfold clampGain. rminmax.
Qed.

(** X9: a calibration that completes on samples not above 1 (every raw
    volume read from an analyser is such a sample) leaves a gain in
    [0.8, 4.0]: the lower clamp bound 0.5 is never what it returns. *)
Theorem calibration_gain_never_floored (volume now : R) (s : t) :
  isCalibrating s = true ->
  CALIBRATION_DURATION <= now - calibrationStartTime s ->
  Forall (fun v => v <= 1) (calibrationSamples s) ->
  volume <= 1 ->
  0.8 <= adaptiveGain (snd (processCalibration volume now s)) <= 4.0.
Proof.
  intros Hcal Hel Hall Hv.
  rewrite (processCalibration_complete volume now s Hcal Hel). cbn [snd].
  apply calibration_gain_floor.
  - destruct (calibrationSamples s); discriminate.
  - apply Forall_app. split; [exact Hall | now constructor].
Qed.

Lemma calibration_gain_never_floored_witness :
  (isCalibrating Scenario.noisyCalibration = true
   /\ CALIBRATION_DURATION
      <= 1000 - calibrationStartTime Scenario.noisyCalibration
   /\ Forall (fun v => v <= 1) (calibrationSamples Scenario.noisyCalibration)
   /\ 0.5 <= 1)
  /\ 0.8 <= adaptiveGain
              (snd (processCalibration 0.5 1000 Scenario.noisyCalibration)).
Proof.
  assert (Hall : Forall (fun v => v <= 1)
                   (calibrationSamples Scenario.noisyCalibration)).
  { change (calibrationSamples Scenario.noisyCalibration)
      with (repeat 0.02 900 ++ repeat 0.5 99).
    apply Forall_app. split; apply Forall_forall; intros v Hv;
      apply repeat_spec in Hv; subst; lra. }
  assert (Hv : 0.5 <= 1) by lra.
  split; [repeat split; trivial; exact noisyCalibration_elapsed|].
  exact (proj1 (calibration_gain_never_floored 0.5 1000
                  Scenario.noisyCalibration eq_refl
                  noisyCalibration_elapsed Hall Hv)).
Defined.

(** X10: a microphone frame read while calibrating adds exactly one sample;
    calibration ends with that frame exactly when 1000 ms have elapsed since
    its start, and the samples collected are still counted afterwards. *)
Theorem calibration_ends_at_deadline dataArray now rnd (s : t) :
  analyser s = true ->
  isCalibrating s = true ->
  (isCalibrating (snd (getVolume microphone dataArray now rnd s)) = false
   <-> CALIBRATION_DURATION <= now - calibrationStartTime s)
  /\ cs_samplesCount
       (getCalibrationStatus now (snd (getVolume microphone dataArray now rnd s)))
     = S (cs_samplesCount (getCalibrationStatus now s)).
Proof.
  intros Han Hcal.
  destruct (Rle_dec CALIBRATION_DURATION (now - calibrationStartTime s))
    as [Hel|Hel].
  - rewrite (getVolume_completing dataArray now rnd s Han Hcal Hel).
    cbn [snd processVolumeAdaptively isCalibrating completeCalibration
         getCalibrationStatus cs_samplesCount calibrationSamples].
    rewrite sort_length, length_app. simpl length.
    split; [tauto | lia].
  - unfold getVolume. cbn [AudioMode_eqb]. rewrite Han, Hcal. cbn [negb].
    assert (Hlt : now - calibrationStartTime s < CALIBRATION_DURATION) by lra.
    destruct (processCalibration_pending (rawVolumeOf dataArray) now s Hcal Hlt)
      as (Hf & Hc & Hs).
    destruct (processCalibration _ _ _) as [complete s1]. simpl in Hf, Hc, Hs.
    subst complete. cbn [negb snd getCalibrationStatus cs_samplesCount].
    rewrite Hc, Hs, length_app. simpl length.
    split; [split; [discriminate | intros H; contradiction] | lia].
Qed.

Lemma calibration_ends_at_deadline_witness :
  (analyser Scenario.warmedUp = true /\ isCalibrating Scenario.warmedUp = true)
  /\ cs_samplesCount
       (getCalibrationStatus 1000
          (snd (getVolume microphone Scenario.loudFrame 1000 0
                  Scenario.warmedUp)))
     = S (cs_samplesCount (getCalibrationStatus 1000 Scenario.warmedUp)).
Proof.
  assert (Ha : analyser Scenario.warmedUp = true)
    by (rewrite warmedUp_state; reflexivity).
  assert (Hc : isCalibrating Scenario.warmedUp = true)
    by (rewrite warmedUp_state; reflexivity).
  split; [split; assumption|].
  exact (proj2 (calibration_ends_at_deadline Scenario.loudFrame 1000 0
                  Scenario.warmedUp Ha Hc)).
Defined.

(** X11: the progress reported by [getCalibrationStatus] is a number of
    [0, 1] as long as the clock has not gone back behind the calibration
    start, and it is 0 when no calibration is in progress. *)
Theorem calibration_progress_unit (now : R) (s : t) :
  (isCalibrating s = true -> calibrationStartTime s <= now) ->
  0 <= cs_progress (getCalibrationStatus now s) <= 1
  /\ (isCalibrating s = false -> cs_progress (getCalibrationStatus now s) = 0).
Proof.
  intros Hclock. unfold getCalibrationStatus, CALIBRATION_DURATION.
  cbn [cs_progress]. destruct (isCalibrating s).
  - specialize (Hclock eq_refl).
    assert (0 <= (now - calibrationStartTime s) / 1000)
      by (apply Rmult_le_pos; lra).
    split; [rminmax | discriminate].
  - assert (Hz : 0 / 1000 = 0) by lra. rewrite Hz.
    split; [rminmax | intros _; rminmax].
Qed.

Lemma calibration_progress_unit_witness :
  (isCalibrating Scenario.warmedUp = true ->
   calibrationStartTime Scenario.warmedUp <= 900)
  /\ 0 <= cs_progress (getCalibrationStatus 900 Scenario.warmedUp) <= 1.
Proof.
  assert (H : isCalibrating Scenario.warmedUp = true ->
              calibrationStartTime Scenario.warmedUp <= 900)
    by (intros _; rewrite warmedUp_state; simpl; lra).
  split; [exact H|].
  exact (proj1 (calibration_progress_unit 900 Scenario.warmedUp H)).
Defined.

End AudioPipelineMore.

(** ** audio-pipeline.ts: the adaptive gain loop *)

Section AdaptiveLoop.

Import AudioPipeline.

Lemma slice_last_app (n : nat) (l m : list R) :
  JsArray.slice_last n (JsArray.slice_last n l ++ m)
  = JsArray.slice_last n (l ++ m).
Proof.
  unfold JsArray.slice_last.
  assert (Hk : skipn (length l - n) l ++ m = skipn (length l - n) (l ++ m)).
  { rewrite skipn_app.
    replace (length l - n - length l)%nat with 0%nat by lia. reflexivity. }
  rewrite Hk, skipn_skipn, length_skipn, !length_app. f_equal. lia.
Qed.

Lemma pushHistory_slice (rawVolume : R) (h : list R) :
  (length h <= VOLUME_HISTORY_SIZE)%nat ->
  pushHistory rawVolume h
  = JsArray.slice_last VOLUME_HISTORY_SIZE (h ++ [rawVolume]).
Proof.
  intros Hlen. unfold pushHistory, JsArray.slice_last, JsArray.shift. cbv zeta.
  rewrite length_app. simpl length.
  destruct (Nat.ltb_spec VOLUME_HISTORY_SIZE (length h + 1)) as [Hgt|Hle].
  - replace (length h + 1 - VOLUME_HISTORY_SIZE)%nat with 1%nat by lia.
    reflexivity.
  - replace (length h + 1 - VOLUME_HISTORY_SIZE)%nat with 0%nat by lia.
    reflexivity.
Qed.

Lemma processAll_history (volumes : list R) (s : t) :
  history_bounded s ->
  volumeHistory (processAll volumes s)
  = JsArray.slice_last VOLUME_HISTORY_SIZE (volumeHistory s ++ volumes).
Proof.
  revert s. induction volumes as [|v volumes IH]; intros s Hb.
  - simpl. rewrite app_nil_r. unfold JsArray.slice_last.
    replace (length (volumeHistory s) - VOLUME_HISTORY_SIZE)%nat with 0%nat
      by (unfold history_bounded in Hb; lia).
    reflexivity.
  - cbn [processAll fold_left]. fold (processAll volumes).
    rewrite IH by (now apply pushHistory_length).
    cbn [snd processVolumeAdaptively volumeHistory].
    rewrite (pushHistory_slice v _ Hb), slice_last_app, <- app_assoc.
    reflexivity.
Qed.

(** X12: the volume history is a first-in first-out window: after any
    sequence of calls on a new pipeline followed by [processVolumeAdaptively]
    on the raw volumes [volumes], it holds the last 100 elements of the
    earlier history followed by [volumes], in the order received. *)
Theorem volumeHistory_is_last_100 (calls : list call) (volumes : list R) :
  let s := run calls init in
  volumeHistory (processAll volumes s)
  = JsArray.slice_last 100 (volumeHistory s ++ volumes).
Proof.
  cbv zeta. apply processAll_history, run_history.
  unfold history_bounded. simpl. lia.
Qed.

Lemma pushHistory_grows (rawVolume : R) (h : list R) :
  (length h < VOLUME_HISTORY_SIZE)%nat ->
  length (pushHistory rawVolume h) = S (length h).
Proof.
  intros Hlen. rewrite pushHistory_slice by lia.
  unfold JsArray.slice_last. rewrite length_skipn, !length_app. simpl. lia.
Qed.

(** X13: the gain is not adapted before the history holds 50 volumes: while
    the history and the volumes processed count fewer than 50 together, the
    gain is the one the pipeline started with. *)
Theorem gain_frozen_below_50 (volumes : list R) (s : t) :
  (length (volumeHistory s) + length volumes < 50)%nat ->
  adaptiveGain (processAll volumes s) = adaptiveGain s.
Proof.
  revert s. induction volumes as [|v volumes IH]; intros s Hlen.
  - reflexivity.
  - cbn [processAll fold_left]. fold (processAll volumes).
    simpl length in Hlen.
    assert (Hh : length (volumeHistory (snd (processVolumeAdaptively v s)))
                 = S (length (volumeHistory s))).
    { cbn [snd processVolumeAdaptively volumeHistory].
      apply pushHistory_grows. unfold VOLUME_HISTORY_SIZE. lia. }
    rewrite IH by (rewrite Hh; lia).
    cbn [snd processVolumeAdaptively adaptiveGain]. unfold adaptGain.
    cbn [snd processVolumeAdaptively volumeHistory] in Hh. rewrite Hh.
    destruct (Nat.leb_spec 50 (S (length (volumeHistory s)))) as [Hge|_];
      [lia | reflexivity].
Qed.

Lemma gain_frozen_below_50_witness :
  (length (volumeHistory init) + length [0.5%R; 0.9%R] < 50)%nat
  /\ adaptiveGain (processAll [0.5; 0.9] init) = adaptiveGain init.
Proof.
  assert (H : (length (volumeHistory init) + length [0.5%R; 0.9%R] < 50)%nat)
    by (simpl; lia).
  split; [exact H | exact (gain_frozen_below_50 [0.5; 0.9] init H)].
Defined.

(** X14: when the gain is adapted (50 volumes or more in the history, their
    recent average above 0.05) it moves towards [0.3 / average] without
    passing it, by at most a thousandth of its distance to that target. *)
Theorem gain_adapts_towards_target (rawVolume : R) (s : t) :
  let s' := snd (processVolumeAdaptively rawVolume s) in
  let recentVolumes := JsArray.slice_last 50 (volumeHistory s') in
  let avgRecent := JsArray.sum recentVolumes / INR (length recentVolumes) in
  let target := 0.3 / avgRecent in
  gain_in_range s ->
  isCalibrating s = false ->
  (50 <= length (volumeHistory s'))%nat ->
  0.05 < avgRecent ->
  Rmin (adaptiveGain s) target <= adaptiveGain s'
    <= Rmax (adaptiveGain s) target
  /\ Rabs (adaptiveGain s' - adaptiveGain s)
     <= 0.001 * Rabs (target - adaptiveGain s).
Proof.
  cbv zeta. intros Hg Hcal Hlen Havg.
  cbn [snd processVolumeAdaptively adaptiveGain volumeHistory] in *.
  unfold adaptGain. rewrite Hcal.
  destruct (Nat.leb_spec 50 (length (pushHistory rawVolume (volumeHistory s))))
    as [_|Hlt]; [|lia].
  cbn [negb andb]. cbv zeta.
  set (avg := JsArray.sum _ / INR _) in *.
  destruct (Rlt_dec 0.05 avg); [|contradiction].
  set (target := 0.3 / avg). clearbody target.
  unfold gain_in_range in Hg. set (g := adaptiveGain s) in *. clearbody g.
  unfold clampGain, Rabs, Rmin, Rmax.
  repeat match goal with
  | |- context [Rcase_abs ?a] => destruct (Rcase_abs a)
  end; rcases; split; lra.
Qed.

Lemma sum_from (l : list R) (acc : R) :
  fold_left Rplus l acc = acc + JsArray.sum l.
Proof.
  unfold JsArray.sum. revert acc.
  induction l as [|v l IH]; intros acc; simpl.
  - lra.
  - rewrite IH, (IH (0 + v)). lra.
Qed.

Lemma sum_repeat (v : R) (n : nat) : JsArray.sum (repeat v n) = INR n * v.
Proof.
  induction n as [|n IH].
  - unfold JsArray.sum. simpl. lra.
  - rewrite S_INR. unfold JsArray.sum in *. simpl. rewrite sum_from.
    unfold JsArray.sum. rewrite IH. lra.
Qed.

Lemma adaptingPipeline_recent :
  JsArray.slice_last 50
    (volumeHistory (snd (processVolumeAdaptively 0.5 Scenario.adaptingPipeline)))
  = repeat 0.5 50.
Proof.
  cbn [snd processVolumeAdaptively volumeHistory Scenario.adaptingPipeline].
  rewrite pushHistory_slice
    by (rewrite repeat_length; unfold VOLUME_HISTORY_SIZE; lia).
  change (repeat 0.5 49 ++ [0.5]) with (repeat 0.5 49 ++ repeat 0.5 1).
  rewrite <- repeat_app. unfold JsArray.slice_last.
  rewrite length_skipn, !repeat_length.
  replace (49 + 1 - VOLUME_HISTORY_SIZE)%nat with 0%nat
    by (unfold VOLUME_HISTORY_SIZE; lia).
  reflexivity.
Defined.

Lemma gain_adapts_towards_target_witness :
  (gain_in_range Scenario.adaptingPipeline
   /\ isCalibrating Scenario.adaptingPipeline = false)
  /\ adaptiveGain
       (snd (processVolumeAdaptively 0.5 Scenario.adaptingPipeline))
     <= adaptiveGain Scenario.adaptingPipeline.
Proof.
  assert (Hg : gain_in_range Scenario.adaptingPipeline)
    by (unfold gain_in_range; simpl; lra).
  split; [split; [exact Hg | reflexivity]|].
  assert (Hrecent := adaptingPipeline_recent).
  assert (Hlen : (50 <= length (volumeHistory
                     (snd (processVolumeAdaptively 0.5
                             Scenario.adaptingPipeline))))%nat).
  { cbn [snd processVolumeAdaptively volumeHistory Scenario.adaptingPipeline].
    rewrite pushHistory_grows
      by (rewrite repeat_length; unfold VOLUME_HISTORY_SIZE; lia).
    rewrite repeat_length. lia. }
  assert (H50 : INR 50 = 50) by (rewrite INR_IZR_INZ; reflexivity).
  assert (Havg : 0.05 <
    JsArray.sum (JsArray.slice_last 50 (volumeHistory
       (snd (processVolumeAdaptively 0.5 Scenario.adaptingPipeline))))
    / INR (length (JsArray.slice_last 50 (volumeHistory
       (snd (processVolumeAdaptively 0.5 Scenario.adaptingPipeline)))))).
  { rewrite Hrecent, sum_repeat, repeat_length, H50. lra. }
  destruct (gain_adapts_towards_target 0.5 Scenario.adaptingPipeline
              Hg eq_refl Hlen Havg) as [[_ Hhi] _].
  rewrite Hrecent, sum_repeat, repeat_length, H50 in Hhi.
  eapply Rle_trans; [exact Hhi|].
  change (adaptiveGain Scenario.adaptingPipeline) with 1.0. rminmax.
Defined.

End AdaptiveLoop.

(** ** forces.ts: the force system *)

Section ForceSystemMore.

Import ForceSystem.

Lemma spawn_length (v thr : R) (d : Draws) (fs : list InternalForce) :
  (length fs <= length (spawn v thr d fs) <= S (length fs))%nat.
Proof.
  unfold spawn. destruct (Rlt_dec thr v); [|lia].
  cbv zeta. destruct (Rlt_dec _ _); [|lia].
  rewrite length_app. simpl. lia.
Qed.

Lemma spawn_silent (v thr : R) (d : Draws) (fs : list InternalForce) :
  v <= thr -> spawn v thr d fs = fs.
Proof. intros Hv. unfold spawn. destruct (Rlt_dec thr v); [lra | reflexivity]. Qed.

(** X15: an [update] call drops exactly the forces whose life is 0 or less
    and adds at most one force: the count afterwards is the number of forces
    that were alive, or one more. *)
Theorem update_drops_expired_adds_one (v thr : R) (d : Draws) (s : t) :
  let survivors := length (filter alive (forces s)) in
  (survivors <= getActiveCount (update v thr d s) <= S survivors)%nat
  /\ (getActiveCount (update v thr d s) <= S (getActiveCount s))%nat.
Proof.
  cbv zeta. unfold getActiveCount, update. cbn [forces].
  rewrite length_map.
  pose proof (spawn_length v thr d (filter alive (forces s))).
  pose proof (filter_length_le alive (forces s)). lia.
Qed.

(** One silent frame takes at least 0.008 off the life of every force. *)
Lemma update_silent_ages (v thr b : R) (d : Draws) (s : t) :
  system_wf s -> v <= thr ->
  Forall (fun f => life f <= b) (forces s) ->
  system_wf (update v thr d s)
  /\ Forall (fun f => life f <= b - 0.008) (forces (update v thr d s)).
Proof.
  intros [Hf Hwf] Hv Hall. unfold update. cbn [forces].
  rewrite spawn_silent by exact Hv.
  assert (Hkept : Forall (fun f => force_wf f /\ life f <= b)
                    (filter alive (forces s))).
  { apply filter_Forall, Forall_and; assumption. }
  split.
  - split; [exact Hf|]. cbn [forces]. apply Forall_map.
    eapply Forall_impl; [|exact Hkept].
    intros f [Hfw _]. now apply decayForce_wf.
  - apply Forall_map. eapply Forall_impl; [|exact Hkept].
    intros f [Hfw Hl].
    destruct Hfw as (_ & _ & Hd & _). unfold decayForce. cbn [life].
    destruct (Rlt_dec v thr); nra.
Qed.

Lemma update_silent_clears (v thr : R) (d : Draws) (s : t) :
  v <= thr ->
  Forall (fun f => life f <= 0) (forces s) ->
  forces (update v thr d s) = [].
Proof.
  intros Hv Hall. unfold update. cbn [forces].
  assert (Hnone : filter alive (forces s) = []).
  { induction Hall as [|f fs Hf _ IH]; [reflexivity|].
    simpl. unfold alive at 1.
    destruct (Rlt_dec 0 (life f)); [lra | exact IH]. }
  rewrite Hnone, spawn_silent by exact Hv. reflexivity.
Qed.

(** After [k] silent [update] calls no life exceeds [1 - 0.008 k], and
    from the 126th on the collection is empty. *)
Lemma run_silent_age (calls : list call) (s : t) (k : nat) :
  system_wf s ->
  Forall silent_call calls ->
  Forall (fun f => life f <= 1 - INR k * 0.008) (forces s) ->
  ((126 <= k)%nat -> forces s = []) ->
  system_wf (run calls s)
  /\ Forall (fun f => life f <= 1 - INR (k + updateCount calls) * 0.008)
       (forces (run calls s))
  /\ ((126 <= k + updateCount calls)%nat -> forces (run calls s) = []).
Proof.
  intros Hwf Hsilent. revert s k Hwf.
  induction Hsilent as [|c calls Hc _ IH]; intros s k Hwf Hage Hempty.
  - simpl. rewrite Nat.add_0_r.
    split; [exact Hwf | split; [exact Hage | exact Hempty]].
  - destruct c as [v thr d | fade]; cbn [run fold_left step updateCount];
      fold (run calls).
    + simpl in Hc.
      destruct (update_silent_ages v thr (1 - INR k * 0.008) d s Hwf Hc Hage)
        as [Hwf' Hage'].
      replace (k + S (updateCount calls))%nat
        with (S k + updateCount calls)%nat by lia.
      apply IH; [exact Hwf' | |].
      * eapply Forall_impl; [|exact Hage'].
        intros f Hl. simpl in Hl. rewrite S_INR. lra.
      * intros Hk. apply update_silent_clears; [exact Hc|].
        assert (H125 : 125 <= INR k).
        { replace 125 with (INR 125) by (rewrite INR_IZR_INZ; reflexivity).
          apply le_INR. lia. }
        eapply Forall_impl; [|exact Hage]. intros f Hl. simpl in Hl. lra.
    + simpl in Hc. apply IH; [|exact Hage | exact Hempty].
      destruct Hwf as [_ Hall]. split; [exact Hc | exact Hall].
Qed.

(** X16: forces expire: on a reachable system, any sequence of [update] and
    [setFadeMultiplier] calls made in silence (every [update] with its
    smoothed volume at or below its threshold, whatever the volumes,
    thresholds and draws of the single calls; every fade multiplier in
    [0, 1]) that holds at least 126 [update] calls leaves the collection
    empty, whatever it held. *)
Theorem forces_expire_in_silence (calls : list call) (s : t) :
  reachable s ->
  Forall silent_call calls ->
  (126 <= updateCount calls)%nat ->
  forces (run calls s) = []
  /\ getActiveCount (run calls s) = 0%nat.
Proof.
  intros Hr Hsilent Hcount.
  pose proof (reachable_wf s Hr) as Hwf.
  destruct (run_silent_age calls s 0 Hwf Hsilent) as (_ & _ & Hempty).
  - destruct Hwf as [_ Hall]. eapply Forall_impl; [|exact Hall].
    intros f (_ & Hl & _). simpl. lra.
  - intros Hk. lia.
  - assert (He : forces (run calls s) = []) by (apply Hempty; simpl; lia).
    unfold getActiveCount. rewrite He. split; reflexivity.
Qed.

Lemma silence_calls_silent : Forall silent_call Scenario.silence.
Proof.
  unfold Scenario.silence. generalize 63%nat. intros n.
  induction n as [|n IH]; [constructor|].
  cbn [repeat concat]. apply Forall_app. split; [|exact IH].
  unfold Scenario.silentFrameCalls.
  repeat (apply Forall_cons || apply Forall_nil); simpl; lra.
Defined.

Lemma silence_update_count : (126 <= updateCount Scenario.silence)%nat.
Proof.
  assert (H : forall n,
            updateCount (concat (repeat Scenario.silentFrameCalls n))
            = (2 * n)%nat).
  { induction n as [|n IH]; [reflexivity|].
    cbn [repeat concat]. unfold Scenario.silentFrameCalls at 1.
    cbn [app updateCount]. rewrite IH. lia. }
  unfold Scenario.silence. rewrite H. lia.
Defined.

Lemma forces_expire_in_silence_witness :
  (reachable Scenario.spawned
   /\ Forall silent_call Scenario.silence
   /\ (126 <= updateCount Scenario.silence)%nat)
  /\ forces (run Scenario.silence Scenario.spawned) = [].
Proof.
  assert (Hr : reachable Scenario.spawned)
    by (apply reach_update; [exact midDraws_ok | apply reach_create]).
  split; [split; [exact Hr
                 | split; [exact silence_calls_silent
                          | exact silence_update_count]]|].
  exact (proj1 (forces_expire_in_silence Scenario.silence Scenario.spawned
                  Hr silence_calls_silent silence_update_count)).
Defined.

Lemma influenceOf_zero (queried : R) (force : InternalForce) :
  PI * 0.4 <= angleDiff queried force
  \/ (distance force = maxDistance force /\ maxDistance force <> 0)
  \/ distance force = 0 ->
  influenceOf queried force = 0.
Proof.
  pose proof PI_gt_2 as Hpi.
  intros [Hfar | [[Hend Hm] | Hstart]]; unfold influenceOf; cbv zeta.
  - assert (Hq : 1 - angleDiff queried force / (PI * 0.4) <= 0).
    { assert (1 <= angleDiff queried force / (PI * 0.4)); [|lra].
      apply (Rmult_le_reg_r (PI * 0.4)); [lra|].
      unfold Rdiv. rewrite Rmult_assoc, Rinv_l by lra. lra. }
    rewrite (Rmax_left 0 _ Hq). ring.
  - rewrite Hend. unfold Rdiv. rewrite Rinv_r by exact Hm.
    rewrite Rmult_1_l, sin_PI. ring.
  - rewrite Hstart. unfold Rdiv. rewrite !Rmult_0_l, sin_0. ring.
Qed.

(** X17: a force adds nothing to the influence at an angle whose computed
    angular distance to it is 0.4 pi or more, nor once it has travelled its
    full distance, nor before it has moved; when this holds for every force
    of the collection the influence is 0. *)
Theorem getInfluenceAt_local (queried : R) (s : t) :
  Forall (fun f =>
            PI * 0.4 <= angleDiff queried f
            \/ (distance f = maxDistance f /\ maxDistance f <> 0)
            \/ distance f = 0) (forces s) ->
  getInfluenceAt queried s = 0.
Proof.
  destruct s as [fs sens fade]. cbn [forces]. induction 1 as [|f fs Hf _ IH].
  - reflexivity.
  - rewrite getInfluenceAt_cons, IH, (influenceOf_zero queried f Hf). lra.
Qed.

Lemma wrappedForce_far_from_pi :
  Forall (fun f =>
            PI * 0.4 <= angleDiff PI f
            \/ (distance f = maxDistance f /\ maxDistance f <> 0)
            \/ distance f = 0) (forces Scenario.wrappedForce).
Proof.
  pose proof PI_gt_2 as Hpi.
  rewrite wrappedForce_forces.
  constructor; [|constructor]. left.
  unfold angleDiff. cbn [angle].
  rewrite (Rabs_left (PI - (2 * PI + 0.003))) by lra.
  destruct (Rlt_dec PI (- (PI - (2 * PI + 0.003)))); lra.
Defined.

Lemma getInfluenceAt_local_witness :
  Forall (fun f =>
            PI * 0.4 <= angleDiff PI f
            \/ (distance f = maxDistance f /\ maxDistance f <> 0)
            \/ distance f = 0) (forces Scenario.wrappedForce)
  /\ getInfluenceAt PI Scenario.wrappedForce = 0.
Proof.
  split; [exact wrappedForce_far_from_pi|].
  exact (getInfluenceAt_local PI Scenario.wrappedForce wrappedForce_far_from_pi).
Defined.

End ForceSystemMore.

(** ** forces.ts: the noise system *)

Section NoiseSystemFacts.

Import NoiseSystem.

Lemma floor_bounds (x : R) : IZR (floor x) <= x < IZR (floor x) + 1.
Proof. unfold floor. pose proof (base_Int_part x). lra. Qed.

Lemma floor_nonneg (x : R) : 0 <= x -> (0 <= floor x)%Z.
Proof.
  intros Hx. pose proof (floor_bounds x) as [_ Hhi].
  assert (H : (-1 < floor x)%Z) by (apply lt_IZR; lra). lia.
Qed.

Lemma floor_below (x : R) (n : Z) : x < IZR n -> (floor x < n)%Z.
Proof.
  intros Hx. pose proof (floor_bounds x) as [Hlo _]. apply lt_IZR. lra.
Qed.

(** The remainder of a nonnegative number by a positive one. *)
Lemma rem_nonneg (a b : R) : 0 <= a -> 0 < b -> 0 <= rem a b < b.
Proof.
  intros Ha Hb. unfold rem, trunc.
  assert (Hq : 0 <= a / b) by (apply Rmult_le_pos; [lra|];
    left; now apply Rinv_0_lt_compat).
  destruct (Rle_dec 0 (a / b)); [|contradiction].
  pose proof (floor_bounds (a / b)) as [Hlo Hhi].
  assert (Hab : a / b * b = a)
    by (unfold Rdiv; rewrite Rmult_assoc, Rinv_l; lra).
  set (k := IZR (floor (a / b))) in *. set (q := a / b) in *.
  split; nra.
Qed.

(** The remainder of a negative number keeps its sign. *)
Lemma rem_negative (a b : R) : a < 0 -> 0 < b -> - b < rem a b <= 0.
Proof.
  intros Ha Hb. unfold rem, trunc.
  assert (Hq : a / b < 0).
  { unfold Rdiv. rewrite <- (Rmult_0_l (/ b)).
    apply Rmult_lt_compat_r; [now apply Rinv_0_lt_compat | exact Ha]. }
  destruct (Rle_dec 0 (a / b)); [lra|].
  pose proof (floor_bounds (- (a / b))) as [Hlo Hhi].
  rewrite opp_IZR.
  assert (Hab : a / b * b = a)
    by (unfold Rdiv; rewrite Rmult_assoc, Rinv_l; lra).
  set (k := IZR (floor (- (a / b)))) in *. set (q := a / b) in *.
  split; nra.
Qed.

Lemma pointAt_in_range (i : Z) (s : t) :
  (0 <= i < Z.of_nat (length (points s)))%Z -> pointAt i s <> None.
Proof.
  intros Hi. unfold pointAt. destruct (Z.ltb_spec i 0); [lia|].
  apply nth_error_Some. lia.
Qed.

Lemma noise_formula_bound (a b : R) : -6 <= sin a * 4 + sin b * 2 <= 6.
Proof. pose proof (SIN_bound a). pose proof (SIN_bound b). lra. Qed.

(** X18: on a noise system with at least one point, [getNoiseAt] at a
    nonnegative angle is the two-harmonic wave
    [sin(4 angle + 0.6 time) * 4 + sin(5 angle - 0.4 time) * 2], whatever
    the points hold; its value lies in [-6, 6]. *)
Theorem getNoiseAt_nonneg_angle (queried time : R) (s : t) :
  wf s -> (0 < numPoints s)%nat -> 0 <= queried ->
  getNoiseAt queried time s
  = sin (queried * 4 + time * 0.6) * 4 + sin (queried * 5 - time * 0.4) * 2
  /\ -6 <= getNoiseAt queried time s <= 6.
Proof.
  intros [Hlen _] Hn Hq. pose proof PI_gt_2 as Hpi.
  assert (Heq : getNoiseAt queried time s
    = sin (queried * 4 + time * 0.6) * 4 + sin (queried * 5 - time * 0.4) * 2).
  { unfold getNoiseAt. cbv zeta.
    destruct (rem_nonneg queried (PI * 2) Hq) as [Hlo Hhi]; [lra|].
    set (normalizedAngle := rem queried (PI * 2)) in *.
    assert (Hfrac : 0 <= normalizedAngle / (PI * 2) < 1).
    { split.
      - apply Rmult_le_pos; [lra|]. left. apply Rinv_0_lt_compat. lra.
      - apply (Rmult_lt_reg_r (PI * 2)); [lra|].
        unfold Rdiv. rewrite Rmult_assoc, Rinv_l by lra. lra. }
    assert (Hpos : 0 < INR (numPoints s)) by now apply lt_0_INR.
    set (x := normalizedAngle / (PI * 2) * INR (numPoints s)).
    assert (Hx : 0 <= x < IZR (Z.of_nat (numPoints s))).
    { rewrite <- INR_IZR_INZ. unfold x. split; nra. }
    destruct (pointAt (floor x) s) eqn:Hpt; [reflexivity|].
    exfalso. revert Hpt. apply pointAt_in_range. rewrite Hlen.
    split; [apply floor_nonneg | apply floor_below]; lra. }
  split; [exact Heq|]. rewrite Heq. apply noise_formula_bound.
Qed.

Lemma create_wf (n : nat) (rnd : nat -> R) :
  (forall k, 0 <= rnd k < 1) -> wf (create n rnd).
Proof.
  intros Hrnd. pose proof PI_gt_2 as Hpi. split.
  - simpl. unfold initializePoints. now rewrite length_map, length_seq.
  - simpl. unfold initializePoints. apply Forall_map, Forall_forall.
    intros i Hi. apply in_seq in Hi.
    assert (Hn : 0 < INR n) by (apply lt_0_INR; lia).
    assert (Hin : 0 <= INR i < INR n)
      by (split; [apply pos_INR | apply lt_INR; lia]).
    assert (Hfrac : 0 <= INR i / INR n < 1).
    { split.
      - apply Rmult_le_pos; [lra|]. left. now apply Rinv_0_lt_compat.
      - apply (Rmult_lt_reg_r (INR n)); [lra|].
        unfold Rdiv. rewrite Rmult_assoc, Rinv_l by lra. lra. }
    pose proof (Hrnd (3 * i)%nat). pose proof (Hrnd (3 * i + 1)%nat).
    pose proof (Hrnd (3 * i + 2)%nat).
    unfold point_ok, noisePoint. cbn [angle speed amplitude phase].
    repeat split; nra.
Qed.

Lemma noise24_wf : wf Scenario.noise24.
Proof. apply create_wf. intros k. unfold Scenario.evenDraws. lra. Defined.

Lemma getNoiseAt_nonneg_angle_witness :
  (wf Scenario.noise24 /\ (0 < numPoints Scenario.noise24)%nat /\ 0 <= 1)
  /\ -6 <= getNoiseAt 1 0 Scenario.noise24 <= 6.
Proof.
  assert (Hn : (0 < numPoints Scenario.noise24)%nat) by (simpl; lia).
  assert (Hq : 0 <= 1) by lra.
  split; [split; [exact noise24_wf | split; assumption]|].
  exact (proj2 (getNoiseAt_nonneg_angle 1 0 Scenario.noise24 noise24_wf Hn Hq)).
Defined.

(** X19: at a negative angle that is not a whole multiple of 2 pi the point
    index is negative (or the system has no point), the lookup finds
    nothing, and [getNoiseAt] returns 0. *)
Theorem getNoiseAt_negative_angle (queried time : R) (s : t) :
  wf s -> queried < 0 ->
  (forall k : Z, queried <> IZR k * (PI * 2)) ->
  getNoiseAt queried time s = 0.
Proof.
  intros [Hlen _] Hq Hmult. pose proof PI_gt_2 as Hpi.
  unfold getNoiseAt. cbv zeta.
  destruct (rem_negative queried (PI * 2) Hq) as [Hlo Hhi]; [lra|].
  assert (Hne : rem queried (PI * 2) <> 0).
  { unfold rem. intros Hz.
    apply (Hmult (trunc (queried / (PI * 2)))). lra. }
  set (normalizedAngle := rem queried (PI * 2)) in *.
  assert (Hfrac : normalizedAngle / (PI * 2) < 0).
  { unfold Rdiv. rewrite <- (Rmult_0_l (/ (PI * 2))).
    apply Rmult_lt_compat_r; [apply Rinv_0_lt_compat; lra | lra]. }
  destruct (numPoints s) as [|n] eqn:Hnum.
  - simpl INR. rewrite Rmult_0_r.
    assert (Hf0 : floor 0 = 0%Z).
    { pose proof (floor_nonneg 0 (Rle_refl 0)).
      assert (floor 0 < 1)%Z by (apply floor_below; simpl; lra). lia. }
    rewrite Hf0. unfold pointAt. simpl.
    destruct (points s); [reflexivity | discriminate].
  - assert (Hpos : 0 < INR (S n)) by (apply lt_0_INR; lia).
    set (x := normalizedAngle / (PI * 2) * INR (S n)).
    assert (Hx : x < IZR 0) by (unfold x; simpl IZR; nra).
    pose proof (floor_below x 0 Hx) as Hneg.
    unfold pointAt. destruct (Z.ltb_spec (floor x) 0); [reflexivity | lia].
Qed.

Lemma minus_one_not_a_turn (k : Z) : -1 <> IZR k * (PI * 2).
Proof.
  pose proof PI_gt_2 as Hpi. intros Hk.
  assert (Hcases : (k <= -1 \/ k = 0 \/ 1 <= k)%Z) by lia.
  destruct Hcases as [Hneg | [-> | Hpos]].
  - apply IZR_le in Hneg. simpl in Hneg. nra.
  - simpl in Hk. lra.
  - apply IZR_le in Hpos. simpl in Hpos. nra.
Defined.

Lemma getNoiseAt_negative_angle_witness :
  (wf Scenario.noise24 /\ -1 < 0
   /\ forall k : Z, -1 <> IZR k * (PI * 2))
  /\ getNoiseAt (-1) 0 Scenario.noise24 = 0.
Proof.
  assert (Hq : -1 < 0) by lra.
  split; [split; [exact noise24_wf | split; [exact Hq | exact minus_one_not_a_turn]]|].
  exact (getNoiseAt_negative_angle (-1) 0 Scenario.noise24 noise24_wf Hq
           minus_one_not_a_turn).
Defined.

(** X20: [setPointCount] leaves a system with exactly [count] points, each
    with its angle in [0, 2 pi), speed in [0.001, 0.003), amplitude in
    [0.3, 0.6) and phase in [0, 2 pi); called with the count the system
    already has, it changes nothing and draws no random number. *)
Theorem setPointCount_rebuilds (count : nat) (rnd : nat -> R) (s : t) :
  wf s ->
  (forall k, 0 <= rnd k < 1) ->
  wf (setPointCount count rnd s)
  /\ numPoints (setPointCount count rnd s) = count
  /\ length (points (setPointCount count rnd s)) = count
  /\ (count = numPoints s -> setPointCount count rnd s = s).
Proof.
  intros Hwf Hrnd. unfold setPointCount.
  destruct (Nat.eqb_spec count (numPoints s)) as [Heq|Hne].
  - destruct Hwf as [Hlen Hall]. repeat split; trivial; congruence.
  - pose proof (create_wf count rnd Hrnd) as [Hlen Hall].
    repeat split; trivial. intros Heq. contradiction.
Qed.

Lemma evenDraws_unit : forall k, 0 <= Scenario.evenDraws k < 1.
Proof. intros k. unfold Scenario.evenDraws. lra. Defined.

Lemma setPointCount_rebuilds_witness :
  (wf Scenario.noise24 /\ forall k, 0 <= Scenario.evenDraws k < 1)
  /\ length (points (setPointCount 12 Scenario.evenDraws Scenario.noise24))
     = 12%nat.
Proof.
  split; [split; [exact noise24_wf | exact evenDraws_unit]|].
  exact (proj1 (proj2 (proj2
           (setPointCount_rebuilds 12 Scenario.evenDraws Scenario.noise24
              noise24_wf evenDraws_unit)))).
Defined.

End NoiseSystemFacts.

(** ** VoiceOrb.ts: volume, fade-out and relaxation *)

Section VoiceOrbMore.

Import VoiceOrb.

Lemma easeOutCubic_unit (p : R) : 0 <= p <= 1 -> 0 <= Utils.easeOutCubic p <= 1.
Proof.
  intros Hp. unfold Utils.easeOutCubic.
  pose proof (cube_monotone 0 (1 - p)). pose proof (cube_monotone (1 - p) 1).
  assert (Hone : (1 : R) ^ 3 = 1) by ring.
  assert (Hzero : (0 : R) ^ 3 = 0) by ring.
  lra.
Qed.

(** What the volume part of [draw] relies on between two frames: the last
    significant audio is not in the future of the clock value [t0], the
    smoothed volume is a number of [0, 1], the gain is inside its clamp and
    the options are sound. *)
Lemma draw_volume_range (t0 : R) (f : Frame) (s : t) :
  lastAudioTime s <= t0 ->
  0 <= smoothedVolume s <= 1 ->
  AudioPipeline.gain_in_range (audioPipeline s) ->
  options_ok (options s) ->
  t0 <= nowAudio f -> nowAudio f <= nowFade f ->
  0 <= rnd f < 1 ->
  (currentMode s = test \/ dataArray f <> []) ->
  0 <= fst (draw f s) <= 1
  /\ lastAudioTime (snd (draw f s)) <= nowFade f
  /\ 0 <= smoothedVolume (snd (draw f s)) <= 1
  /\ AudioPipeline.gain_in_range (audioPipeline (snd (draw f s)))
  /\ options (snd (draw f s)) = options s.
Proof.
  intros Hlast Hsm Hg [Hlerp Hms] Ht0 Hclk Hrnd Hframe.
  assert (Hok : AudioPipeline.call_ok
            (AudioPipeline.CGetVolume (currentMode s) (dataArray f)
               (nowVolume f) (rnd f))) by (split; assumption).
  pose proof (getVolume_unit_range _ _ _ _ _ Hok Hg) as Hraw.
  pose proof (getVolume_gain (currentMode s) (dataArray f) (nowVolume f)
                (rnd f) _ Hg) as Hg'.
  unfold draw.
  destruct (AudioPipeline.getVolume _ _ _ _ _) as [rawVolume pipeline].
  cbn [fst snd] in Hraw, Hg'.
  cbn [fst snd lastAudioTime smoothedVolume audioPipeline options
       AudioPipeline.getThresholds cd_sensitivity].
  set (last := if Rlt_dec _ rawVolume then nowAudio f else lastAudioTime s).
  assert (Hl : last <= nowFade f) by (unfold last; destruct (Rlt_dec _ _); lra).
  set (progress := Rmin ((nowFade f - last) / fadeOutMs (options s)) 1).
  assert (Hp : 0 <= progress <= 1).
  { assert (0 <= (nowFade f - last) / fadeOutMs (options s)).
    { apply Rmult_le_pos; [lra|]. left. now apply Rinv_0_lt_compat. }
    unfold progress. rminmax. }
  pose proof (easeOutCubic_unit progress Hp) as He.
  set (ease := Utils.easeOutCubic progress) in *. clearbody ease.
  assert (Ht : 0 <= rawVolume * (1 - ease) <= 1) by (split; nra).
  set (target := rawVolume * (1 - ease)) in *. clearbody target.
  assert (Hs' : 0 <= smoothedVolume s
                     + (target - smoothedVolume s)
                       * volumeLerpFactor (options s) <= 1) by (split; nra).
  set (smoothed := smoothedVolume s
                   + (target - smoothedVolume s)
                     * volumeLerpFactor (options s)) in *.
  clearbody smoothed.
  pose proof (nextFadeMultiplier_range smoothed (previousVolumeLevel s)
                (fadeMultiplier s)) as Hfade.
  set (fade := nextFadeMultiplier smoothed (previousVolumeLevel s)
                 (fadeMultiplier s)) in *.
  clearbody fade.
  repeat split; trivial; try apply Hg'; try lra; nra.
Qed.

Lemma step_volume_inv (t0 : R) (c : call) (s : t) :
  lastAudioTime s <= t0 ->
  0 <= smoothedVolume s <= 1 ->
  AudioPipeline.gain_in_range (audioPipeline s) ->
  options_ok (options s) ->
  match c with
  | CDraw _ => False
  | CSetOptions o => options_ok o
  | _ => True
  end ->
  lastAudioTime (step s c) <= t0
  /\ 0 <= smoothedVolume (step s c) <= 1
  /\ AudioPipeline.gain_in_range (audioPipeline (step s c))
  /\ options_ok (options (step s c)).
Proof.
  intros Hlast Hsm Hg Ho Hc.
  destruct c; try contradiction; simpl; repeat split; trivial;
    try (unfold AudioPipeline.gain_in_range; simpl; lra); try lra;
    try apply Ho; try apply Hc; try apply Hg.
Qed.

Lemma volumes_unit_range (calls : list call) (t0 : R) (s : t) :
  lastAudioTime s <= t0 ->
  0 <= smoothedVolume s <= 1 ->
  AudioPipeline.gain_in_range (audioPipeline s) ->
  options_ok (options s) ->
  clocked t0 calls s ->
  Forall (fun v => 0 <= v <= 1) (volumes calls s).
Proof.
  revert t0 s. induction calls as [|c calls IH];
    intros t0 s Hlast Hsm Hg Ho Hclk; [constructor|].
  destruct c as [f | now | | | | | o].
  - destruct Hclk as (Ht0 & Hfa & Hrnd & Hframe & Hrest).
    destruct (draw_volume_range t0 f s Hlast Hsm Hg Ho Ht0 Hfa Hrnd Hframe)
      as (Hv & Hl' & Hs' & Hg' & Ho').
    cbn [volumes]. constructor; [exact Hv|].
    apply (IH (nowFade f)); trivial. cbn [step]. now rewrite Ho'.
  - destruct (step_volume_inv t0 (CStartMicrophone now) s Hlast Hsm Hg Ho I)
      as (? & ? & ? & ?). now apply (IH t0).
  - destruct (step_volume_inv t0 CStartMicrophoneDenied s Hlast Hsm Hg Ho I)
      as (? & ? & ? & ?). now apply (IH t0).
  - destruct (step_volume_inv t0 CStartAssistant s Hlast Hsm Hg Ho I)
      as (? & ? & ? & ?). now apply (IH t0).
  - destruct (step_volume_inv t0 CStartTest s Hlast Hsm Hg Ho I)
      as (? & ? & ? & ?). now apply (IH t0).
  - destruct (step_volume_inv t0 CStop s Hlast Hsm Hg Ho I)
      as (? & ? & ? & ?). now apply (IH t0).
  - destruct Hclk as [Hoo Hrest].
    destruct (step_volume_inv t0 (CSetOptions o) s Hlast Hsm Hg Ho Hoo)
      as (? & ? & ? & ?). now apply (IH t0).
Qed.

(** X21: on an orb created with sound options, along any sequence of calls
    whose clock reads never go back, whose random values lie in [0, 1) and
    whose analyser frames have at least one bin, the effective volume of
    every frame (the argument of [onVolume]) lies in [0, 1]. *)
Theorem effectiveVolume_unit_range (opts : Options) (calls : list call) :
  options_ok opts ->
  clocked 0 calls (create opts) ->
  Forall (fun v => 0 <= v <= 1) (volumes calls (create opts)).
Proof.
  intros Ho Hclk. apply (volumes_unit_range calls 0); trivial; simpl; try lra.
  unfold AudioPipeline.gain_in_range. simpl. lra.
Qed.

Lemma default_options_ok : options_ok DEFAULT_OPTIONS.
Proof. unfold options_ok. simpl. lra. Defined.

Lemma testCalls_clocked :
  clocked 0 Scenario.testCalls (create DEFAULT_OPTIONS).
Proof.
  unfold Scenario.testCalls. cbn [clocked step].
  cbn [Scenario.testFrame nowAudio nowFade rnd].
  repeat split; try lra. left. reflexivity.
Defined.

Lemma effectiveVolume_unit_range_witness :
  (options_ok DEFAULT_OPTIONS
   /\ clocked 0 Scenario.testCalls (create DEFAULT_OPTIONS))
  /\ Forall (fun v => 0 <= v <= 1)
       (volumes Scenario.testCalls (create DEFAULT_OPTIONS)).
Proof.
  split; [split; [exact default_options_ok | exact testCalls_clocked]|].
  exact (effectiveVolume_unit_range DEFAULT_OPTIONS Scenario.testCalls
           default_options_ok testCalls_clocked).
Defined.

(** X22: once [fadeOutMs] have passed since the last significant audio, a
    frame whose raw volume does not exceed the sensitivity threshold gets
    the target volume 0, whatever that raw volume is, and the smoothed
    volume is the previous one times [1 - volumeLerpFactor]. *)
Theorem silence_fades_target_to_zero (f : Frame) (s : t) :
  let reading :=
    AudioPipeline.getVolume (currentMode s) (dataArray f) (nowVolume f)
      (rnd f) (audioPipeline s) in
  0 < fadeOutMs (options s) ->
  fst reading <= AudioPipeline.dynamicSensitivityThreshold (snd reading) ->
  fadeOutMs (options s) <= nowFade f - lastAudioTime s ->
  targetVolume (snd (draw f s)) = 0
  /\ smoothedVolume (snd (draw f s))
     = smoothedVolume s * (1 - volumeLerpFactor (options s)).
Proof.
  cbv zeta. intros Hms Hquiet Hlate. unfold draw.
  destruct (AudioPipeline.getVolume _ _ _ _ _) as [rawVolume pipeline].
  cbn [fst snd] in Hquiet.
  cbn [snd targetVolume smoothedVolume AudioPipeline.getThresholds
       cd_sensitivity].
  destruct (Rlt_dec (AudioPipeline.dynamicSensitivityThreshold pipeline)
              rawVolume); [lra|].
  assert (Hone : 1 <= (nowFade f - lastAudioTime s) / fadeOutMs (options s)).
  { apply (Rmult_le_reg_r (fadeOutMs (options s))); [exact Hms|].
    unfold Rdiv. rewrite Rmult_assoc, Rinv_l by lra. lra. }
  rewrite (Rmin_right _ 1 Hone).
  assert (He : Utils.easeOutCubic 1 = 1) by (unfold Utils.easeOutCubic; ring).
  rewrite He. split; ring.
Qed.

Lemma silence_fades_target_to_zero_witness :
  (0 < fadeOutMs (options Scenario.testOrb)
   /\ fadeOutMs (options Scenario.testOrb)
      <= nowFade Scenario.lateFrame - lastAudioTime Scenario.testOrb)
  /\ targetVolume (snd (draw Scenario.lateFrame Scenario.testOrb)) = 0.
Proof.
  destruct testOrb_state as (_ & Hm & Ho & Hp & Hl).
  assert (Hms : 0 < fadeOutMs (options Scenario.testOrb))
    by (rewrite Ho; simpl; lra).
  assert (Hlate : fadeOutMs (options Scenario.testOrb)
                  <= nowFade Scenario.lateFrame - lastAudioTime Scenario.testOrb)
    by (rewrite Ho, Hl; simpl; lra).
  split; [split; assumption|].
  apply (silence_fades_target_to_zero Scenario.lateFrame Scenario.testOrb Hms);
    [|exact Hlate].
  rewrite Hm, Hp. unfold AudioPipeline.getVolume.
  cbn [AudioMode_eqb fst snd Scenario.lateFrame nowVolume rnd
       AudioPipeline.init AudioPipeline.dynamicSensitivityThreshold].
  rewrite test_signal_at_0. lra.
Defined.



(** X24: after any sequence of calls whose frames come with draws in
    [0, 1), the orb's fade multiplier is a number of [0, 1] and its force
    system is one that [ForceSystem.reachable] describes, with the same fade
    multiplier bounds. *)
Theorem orb_keeps_forces_reachable (opts : Options) (calls : list call) :
  frames_ok calls ->
  let s := run calls (create opts) in
  0 <= fadeMultiplier s <= 1
  /\ ForceSystem.reachable (forceSystem s)
  /\ 0 <= ForceSystem.fadeMultiplier (forceSystem s) <= 1.
Proof.
  intros Hok. cbv zeta.
  assert (Hr : ForceSystem.reachable (forceSystem (run calls (create opts))))
    by (apply run_forceSystem; [exact Hok | apply ForceSystem.reach_create]).
  split; [apply run_fade_inv, create_fade_inv|].
  split; [exact Hr | apply (reachable_wf _ Hr)].
Qed.

Lemma testCalls_frames_ok : frames_ok Scenario.testCalls.
Proof.
  unfold frames_ok, Scenario.testCalls.
  apply Forall_cons; [exact I|].
  apply Forall_cons; [exact midDraws_ok | apply Forall_nil].
Defined.

Lemma orb_keeps_forces_reachable_witness :
  frames_ok Scenario.testCalls
  /\ ForceSystem.reachable (forceSystem Scenario.testOrb).
Proof.
  split; [exact testCalls_frames_ok|].
  exact (proj1 (proj2 (orb_keeps_forces_reachable DEFAULT_OPTIONS
                         Scenario.testCalls testCalls_frames_ok))).
Defined.

End VoiceOrbMore.

(** ** VoiceOrb.ts: the shape handed to the canvas *)

Section OrbShapeFacts.

Import OrbShape.

Lemma Rabs_le_iff (a b : R) : Rabs a <= b <-> - b <= a <= b.
Proof. unfold Rabs. destruct (Rcase_abs a); split; intros; lra. Qed.

Lemma radius_bounds_ordered (opts : Options) (fade adjustedVolume : R) :
  0 <= radius opts -> 0 <= fade <= 1 -> 0 <= adjustedVolume ->
  0.6 * radius opts <= innerRadius opts fade
  /\ innerRadius opts fade <= radius opts
  /\ radius opts <= outerRadius opts fade adjustedVolume.
Proof.
  intros Hr Hf Ha. unfold innerRadius, outerRadius.
  assert (Hrf : 0 <= radius opts * fade) by (apply Rmult_le_pos; lra).
  assert (Hrg : 0 <= radius opts * (1 - fade)) by (apply Rmult_le_pos; lra).
  assert (Hraf : 0 <= radius opts * fade * adjustedVolume)
    by (apply Rmult_le_pos; lra).
  repeat split; nra.
Qed.

Lemma vertexRadius_between (opts : Options) (time fade effectiveVolume : R)
    (thresholds : CalibrationData) (fs : ForceSystem.t) (vertexAngle : R) :
  0 <= radius opts -> 0 <= fade <= 1 ->
  let adjustedVolume := Rmax 0 (effectiveVolume - cd_sensitivity thresholds) in
  innerRadius opts fade
  <= vertexRadius opts time fade effectiveVolume thresholds fs vertexAngle
  <= outerRadius opts fade adjustedVolume.
Proof.
  intros Hr Hf. cbv zeta.
  pose proof (Rmax_l 0 (effectiveVolume - cd_sensitivity thresholds)) as Ha.
  destruct (radius_bounds_ordered opts fade _ Hr Hf Ha) as (_ & Hin & Hout).
  unfold vertexRadius. cbv zeta.
  set (adj := Rmax 0 (effectiveVolume - cd_sensitivity thresholds)) in *.
  set (r := radius opts + _). clearbody r.
  set (lo := innerRadius opts fade) in *.
  set (hi := outerRadius opts fade adj) in *. clearbody lo hi.
  rminmax.
Qed.

(** X25: for a base radius >= 0 and a fade multiplier of [0, 1], whatever
    the forces, waves and noise add up to, every vertex radius lies between
    [radius * (0.6 + 0.4 (1 - fade))] and
    [radius * (1 + (0.8 + 0.7 adjustedVolume) fade)], hence at least at 60 %
    of the base radius; with the fade multiplier at 0 it is the base radius
    exactly. *)
Theorem vertexRadius_bounds (opts : Options) (time fade effectiveVolume : R)
    (thresholds : CalibrationData) (fs : ForceSystem.t) (vertexAngle : R) :
  0 <= radius opts -> 0 <= fade <= 1 ->
  let adjustedVolume := Rmax 0 (effectiveVolume - cd_sensitivity thresholds) in
  let r := vertexRadius opts time fade effectiveVolume thresholds fs
             vertexAngle in
  0.6 * radius opts <= r
  /\ r <= radius opts * (1.8 + adjustedVolume * 0.7)
  /\ (fade = 0 -> r = radius opts).
Proof.
  intros Hr Hf. cbv zeta.
  pose proof (vertexRadius_between opts time fade effectiveVolume thresholds fs
                vertexAngle Hr Hf) as Hb. cbv zeta in Hb.
  pose proof (Rmax_l 0 (effectiveVolume - cd_sensitivity thresholds)) as Ha.
  destruct (radius_bounds_ordered opts fade _ Hr Hf Ha) as (Hlo & _ & _).
  set (adj := Rmax 0 (effectiveVolume - cd_sensitivity thresholds)) in *.
  set (r := vertexRadius _ _ _ _ _ _ _) in *. clearbody r adj.
  unfold innerRadius, outerRadius in *.
  repeat split; try nra; intros ->; nra.
Qed.

Lemma vertexRadius_bounds_witness :
  (0 <= radius Scenario.shapeOptions /\ 0 <= 0.5 <= 1)
  /\ 0.6 * radius Scenario.shapeOptions
     <= vertexRadius Scenario.shapeOptions 0 0.5 0.3
          Scenario.defaultThresholds Scenario.wrappedForce 0.
Proof.
  assert (Hr : 0 <= radius Scenario.shapeOptions) by (simpl; lra).
  assert (Hf : 0 <= 0.5 <= 1) by lra.
  split; [split; assumption|].
  exact (proj1 (vertexRadius_bounds Scenario.shapeOptions 0 0.5 0.3
                  Scenario.defaultThresholds Scenario.wrappedForce 0 Hr Hf)).
Defined.

(** X26: [generateBlobPoints] returns [pointCount] vertices, and every
    vertex lies in the ring around the orb's current centre whose radii are
    the two bounds of X25. *)
Theorem generateBlobPoints_in_ring (opts : Options)
    (time fade effectiveVolume : R) (thresholds : CalibrationData)
    (fs : ForceSystem.t) (p : Layout) :
  0 <= radius opts -> 0 <= fade <= 1 ->
  let adjustedVolume := Rmax 0 (effectiveVolume - cd_sensitivity thresholds) in
  let blobPoints :=
    generateBlobPoints opts time fade effectiveVolume thresholds fs p in
  length blobPoints = pointCount opts
  /\ Forall (fun v =>
               (innerRadius opts fade) ^ 2
               <= (x v - currentX p) ^ 2 + (y v - currentY p) ^ 2
               <= (outerRadius opts fade adjustedVolume) ^ 2) blobPoints.
Proof.
  intros Hr Hf. cbv zeta. unfold generateBlobPoints. split.
  - now rewrite length_map, length_seq.
  - apply Forall_map, Forall_forall. intros i _. cbn [x y].
    set (vertexAngle := INR i / INR (pointCount opts) * PI * 2).
    pose proof (vertexRadius_between opts time fade effectiveVolume thresholds
                  fs vertexAngle Hr Hf) as Hb. cbv zeta in Hb.
    pose proof (Rmax_l 0 (effectiveVolume - cd_sensitivity thresholds)) as Ha.
    destruct (radius_bounds_ordered opts fade _ Hr Hf Ha) as (Hlo & _ & _).
    set (r := vertexRadius _ _ _ _ _ _ _) in *. clearbody r.
    set (lo := innerRadius opts fade) in *.
    set (hi := outerRadius opts fade _) in *. clearbody lo hi.
    pose proof (sin2_cos2 vertexAngle) as Hunit. unfold Rsqr in Hunit.
    assert (Hd : (currentX p + cos vertexAngle * r - currentX p) ^ 2
                 + (currentY p + sin vertexAngle * r - currentY p) ^ 2
                 = r ^ 2).
    { transitivity
        ((sin vertexAngle * sin vertexAngle
          + cos vertexAngle * cos vertexAngle) * r ^ 2); [ring|].
      rewrite Hunit. ring. }
    rewrite Hd. split; nra.
Qed.

Lemma generateBlobPoints_in_ring_witness :
  (0 <= radius Scenario.shapeOptions /\ 0 <= 0.5 <= 1)
  /\ length (generateBlobPoints Scenario.shapeOptions 0 0.5 0.3
               Scenario.defaultThresholds Scenario.wrappedForce
               Scenario.centred) = 24%nat.
Proof.
  assert (Hr : 0 <= radius Scenario.shapeOptions) by (simpl; lra).
  assert (Hf : 0 <= 0.5 <= 1) by lra.
  split; [split; assumption|].
  exact (proj1 (generateBlobPoints_in_ring Scenario.shapeOptions 0 0.5 0.3
                  Scenario.defaultThresholds Scenario.wrappedForce
                  Scenario.centred Hr Hf)).
Defined.

Lemma clamp_in_box (value centre offset : R) :
  0 <= offset ->
  Rabs (Utils.clamp value (centre - offset) (centre + offset) - centre)
  <= offset.
Proof. intros Ho. apply Rabs_le_iff. rminmax. Qed.

Lemma approach_in_box (current target centre offset k : R) :
  0 <= k <= 1 ->
  Rabs (current - centre) <= offset ->
  Rabs (target - centre) <= offset ->
  Rabs (current + (target - current) * k - centre) <= offset.
Proof.
  intros Hk Hc Ht. apply Rabs_le_iff in Hc. apply Rabs_le_iff in Ht.
  apply Rabs_le_iff. split; nra.
Qed.

(** X27: with [maxOffset >= 0], an effective volume of at most 1 and a
    sensitivity threshold >= 0, [drawOrb] keeps the orb's centre within
    [maxOffset] of its rest position on both axes, in the relaxed branch and
    in the active one, and never moves the rest position. *)
Theorem drawOrb_keeps_centre_in_box (opts : Options)
    (time fade effectiveVolume : R) (thresholds : CalibrationData)
    (hasActiveEffects : bool) (fs : ForceSystem.t) (p : Layout) :
  0 <= maxOffset opts ->
  effectiveVolume <= 1 ->
  0 <= cd_sensitivity thresholds ->
  in_box opts p ->
  let p' := fst (drawOrb opts time fade effectiveVolume thresholds
                   hasActiveEffects fs p) in
  in_box opts p'
  /\ orbX p' = orbX p /\ orbY p' = orbY p
  /\ Rabs (targetX p' - orbX p') <= maxOffset opts
  /\ Rabs (targetY p' - orbY p') <= maxOffset opts.
Proof.
  intros Ho Hv Hs [Hx Hy]. cbv zeta. unfold drawOrb.
  assert (Hzero : Rabs 0 <= maxOffset opts) by (rewrite Rabs_R0; exact Ho).
  destruct hasActiveEffects; cbn [negb fst].
  - unfold updateOrbMovement.
    destruct (moveTarget time effectiveVolume thresholds p) as [tx ty].
    cbn [orbX orbY currentX currentY targetX targetY]. unfold in_box.
    cbn [orbX orbY currentX currentY].
    set (agitation := Rmax 0 (effectiveVolume - cd_sensitivity thresholds)).
    assert (Ha : 0 <= agitation <= 1) by (unfold agitation; rminmax).
    assert (Hk : 0 <= 0.02 + agitation * agitation * 0.06 <= 1) by (split; nra).
    pose proof (clamp_in_box tx (orbX p) (maxOffset opts) Ho) as Htx.
    pose proof (clamp_in_box ty (orbY p) (maxOffset opts) Ho) as Hty.
    repeat split; trivial; now apply approach_in_box.
  - unfold settle, in_box. cbn [orbX orbY currentX currentY targetX targetY].
    replace (orbX p - orbX p) with 0 by ring.
    replace (orbY p - orbY p) with 0 by ring.
    assert (Hx0 : Rabs (orbX p - orbX p) <= maxOffset opts)
      by (replace (orbX p - orbX p) with 0 by ring; exact Hzero).
    assert (Hy0 : Rabs (orbY p - orbY p) <= maxOffset opts)
      by (replace (orbY p - orbY p) with 0 by ring; exact Hzero).
    repeat split; trivial; apply approach_in_box; trivial; lra.
Qed.

Lemma centred_in_box : in_box Scenario.shapeOptions Scenario.centred.
Proof.
  unfold in_box. simpl.
  replace (200 - 200) with 0 by lra. rewrite Rabs_R0. lra.
Defined.

Lemma drawOrb_keeps_centre_in_box_witness :
  (0 <= maxOffset Scenario.shapeOptions /\ 0.9 <= 1
   /\ 0 <= cd_sensitivity Scenario.defaultThresholds
   /\ in_box Scenario.shapeOptions Scenario.centred)
  /\ in_box Scenario.shapeOptions
       (fst (drawOrb Scenario.shapeOptions 3 1 0.9 Scenario.defaultThresholds
               true Scenario.wrappedForce Scenario.centred)).
Proof.
  assert (Ho : 0 <= maxOffset Scenario.shapeOptions) by (simpl; lra).
  assert (Hv : 0.9 <= 1) by lra.
  assert (Hs : 0 <= cd_sensitivity Scenario.defaultThresholds) by (simpl; lra).
  split; [repeat split; trivial; apply centred_in_box|].
  exact (proj1 (drawOrb_keeps_centre_in_box Scenario.shapeOptions 3 1 0.9
                  Scenario.defaultThresholds true Scenario.wrappedForce
                  Scenario.centred Ho Hv Hs centred_in_box)).
Defined.

(** X28: on a non-empty array [drawBlob] builds a closed path with one curve
    per vertex: the control points are the vertices in order, every curve
    ends at the midpoint of its vertex and the next one (the first after the
    last), and the last curve ends where the path began. *)
Theorem drawBlob_closed_path (points : list BlobPoint) :
  points <> [] ->
  exists start curves,
    drawBlob points = Some (start, curves)
    /\ map fst curves = points
    /\ snd (last curves (start, start)) = start
    /\ forall i d, (i < length points)%nat ->
         nth i curves (d, d)
         = (nth i points d,
            midpoint (nth i points d)
              (nth ((i + 1) mod length points) points d)).
Proof.
  intros Hne. destruct points as [|first rest]; [contradiction|].
  set (points := first :: rest) in *.
  set (n := length points).
  set (curve := fun i =>
         (nth i points first,
          midpoint (nth i points first) (nth ((i + 1) mod n) points first))).
  exists (midpoint (nth (n - 1) points first) (nth 0 points first)).
  exists (map curve (seq 0 n)).
  assert (Hn : n = S (length rest)) by reflexivity.
  split; [reflexivity|]. split; [|split].
  - rewrite map_map. cbn [curve fst].
    apply (nth_ext _ _ first first).
    + now rewrite length_map, length_seq.
    + intros i Hi. rewrite length_map, length_seq in Hi.
      rewrite (nth_indep _ first (nth 0 points first))
        by (now rewrite length_map, length_seq).
      rewrite (map_nth (fun i => nth i points first) (seq 0 n) 0%nat i).
      now rewrite seq_nth.
  - rewrite Hn, seq_S, map_app. cbn [map]. rewrite last_last.
    unfold curve. cbn [snd]. rewrite <- Hn.
    replace (0 + length rest + 1)%nat with n by lia.
    rewrite Nat.Div0.mod_same.
    replace (0 + length rest)%nat with (n - 1)%nat by lia. reflexivity.
  - intros i d Hi. fold n in Hi |- *.
    rewrite (nth_indep _ (d, d) (curve 0%nat))
      by (now rewrite length_map, length_seq).
    rewrite (map_nth curve (seq 0 n) 0%nat i), seq_nth by exact Hi.
    unfold curve. cbn [Nat.add].
    assert (Hnext : ((i + 1) mod n < n)%nat)
      by (apply Nat.mod_upper_bound; lia).
    rewrite (nth_indep points first d) by exact Hi.
    rewrite (nth_indep points first d) by exact Hnext.
    reflexivity.
Qed.

Lemma drawBlob_closed_path_witness :
  Scenario.triangle <> []
  /\ exists start curves,
       drawBlob Scenario.triangle = Some (start, curves)
       /\ map fst curves = Scenario.triangle.
Proof.
  assert (Hne : Scenario.triangle <> []) by discriminate.
  split; [exact Hne|].
  destruct (drawBlob_closed_path Scenario.triangle Hne)
    as (start & curves & Hd & Hc & _).
  exists start, curves. split; assumption.
Defined.


End OrbShapeFacts.
